(** * Capsule network with dynamic routing: model of [main.py]

    The numeric code of [main.py] ([squash], [DynamicRouting],
    [FirstCapsuleLayer], [CapsLayer], [CapsuleNet], [MarginLoss]) is
    embedded as functions on nested lists.  Tensor code is written once,
    generically over the scalar type, and specialised to

    - [xreal]: exact real arithmetic extended with one non-finite value,
      which is what a division of zero by zero produces;
    - [float]: IEEE 754 binary64 (the primitive floats), on which the
      arithmetic part of the code can be run.
*)

From Stdlib Require Import Reals List Lra Lia ZArith Bool Floats.
Import ListNotations.

(** ** Scalars *)

(** The arithmetic a tensor element supports: what [squash] needs. *)
Class Arith (num : Type) : Type := {
  zero : num;
  one : num;
  add : num -> num -> num;
  sub : num -> num -> num;
  mul : num -> num -> num;
  div : num -> num -> num;
  sqrt : num -> num
}.

(** What softmax and the loss need on top: [exp], [relu] and the
    conversion of an integer tensor with [.float()]. *)
Class Scalar (num : Type) `{Arith num} : Type := {
  exp : num -> num;
  relu : num -> num;
  of_int : Z -> num
}.

(** Real numbers with a not-a-number.  [Fin r] is the finite value [r];
    [NaN] is the result of an undefined operation and is absorbing, as in
    IEEE arithmetic.  Rounding, overflow, underflow and signed infinities
    are not modelled: a division by zero gives [NaN] (the programs below
    only ever divide zero by zero when their inputs are finite), and [exp]
    is never zero.  What is proved at this type is proved of the
    computation in exact arithmetic; [float_arith] below runs the same
    definitions in IEEE binary64. *)
Inductive xreal : Type :=
| Fin (r : R)
| NaN.

Definition xlift2 (f : R -> R -> R) (x y : xreal) : xreal :=
  match x, y with
  | Fin a, Fin b => Fin (f a b)
  | _, _ => NaN
  end.

Definition xdiv (x y : xreal) : xreal :=
  match x, y with
  | Fin a, Fin b => if Req_dec_T b 0 then NaN else Fin (a / b)
  | _, _ => NaN
  end.

Definition xsqrt (x : xreal) : xreal :=
  match x with
  | Fin a => if Rlt_dec a 0 then NaN else Fin (R_sqrt.sqrt a)
  | NaN => NaN
  end.

Definition xlift1 (f : R -> R) (x : xreal) : xreal :=
  match x with
  | Fin a => Fin (f a)
  | NaN => NaN
  end.

#[export] Instance xreal_arith : Arith xreal := {
  zero := Fin 0;
  one := Fin 1;
  add := xlift2 Rplus;
  sub := xlift2 Rminus;
  mul := xlift2 Rmult;
  div := xdiv;
  sqrt := xsqrt
}.

#[export] Instance xreal_scalar : Scalar xreal := {
  exp := xlift1 Rtrigo_def.exp;
  relu := xlift1 (Rmax 0);
  of_int := fun z => Fin (IZR z)
}.

(** IEEE 754 binary64. *)
#[export] Instance float_arith : Arith float := {
  zero := 0%float;
  one := 1%float;
  add := PrimFloat.add;
  sub := PrimFloat.sub;
  mul := PrimFloat.mul;
  div := PrimFloat.div;
  sqrt := PrimFloat.sqrt
}.

Definition finite (x : xreal) : Prop :=
  match x with
  | Fin _ => True
  | NaN => False
  end.

(** ** Tensors as nested lists *)

Abbreviation tensor1 num := (list num) (only parsing).
Abbreviation tensor2 num := (list (list num)) (only parsing).
Abbreviation tensor3 num := (list (list (list num))) (only parsing).
Abbreviation tensor4 num := (list (list (list (list num)))) (only parsing).

Section Tensors.
Context {num : Type} `{Arith num}.

(** Elementwise combination of two tensors of the same shape. *)
Fixpoint zip_with {A B C : Type} (f : A -> B -> C)
         (l1 : list A) (l2 : list B) : list C :=
  match l1, l2 with
  | x :: l1', y :: l2' => f x y :: zip_with f l1' l2'
  | _, _ => []
  end.

(** [.sum()] along an axis of scalars. *)
Definition sum (v : tensor1 num) : num := fold_right add zero v.

(** [.pow(2)] *)
Definition pow2 (x : num) : num := mul x x.

(** [size(0), size(1), size(2), size(3)] of a 4-d tensor. *)
Definition size4 (t : tensor4 num) : nat * nat * nat * nat :=
  (length t,
   length (hd [] t),
   length (hd [] (hd [] t)),
   length (hd [] (hd [] (hd [] t)))).

(** [squash], lines 14-18.  [vec] has shape [batch, caps, dim]. *)
Definition squash (vec : tensor3 num) : tensor3 num :=
  (* lensq = vec.pow(2).sum(dim=2) *)
  let lensq : tensor2 num := map (map (fun v => sum (map pow2 v))) vec in
  (* length = lensq.sqrt() *)
  let length : tensor2 num := map (map sqrt) lensq in
  (* lensq / (1 + lensq) / length *)
  let one_plus : tensor2 num := map (map (add one)) lensq in
  let factor : tensor2 num :=
    zip_with (zip_with div) (zip_with (zip_with div) lensq one_plus) length in
  (* vec * factor.view(vec.size(0), vec.size(1), 1) *)
  zip_with (zip_with (fun v k => map (fun x => mul x k) v)) vec factor.

(** [x.pow(2).sum(dim=2).sqrt()], line 107: the length of every capsule
    vector of a [batch, caps, dim] tensor. *)
Definition lengths (x : tensor3 num) : tensor2 num :=
  map (map (fun v => sqrt (sum (map pow2 v)))) x.

(** [l] cut into consecutive blocks of [n] elements.  The recursion is on
    a counter started at the length of [l], which is enough for [0 < n]. *)
Fixpoint chunk_upto {A : Type} (k n : nat) (l : list A) : list (list A) :=
  match k with
  | O => []
  | S k' =>
      match l with
      | [] => []
      | _ :: _ => firstn n l :: chunk_upto k' n (skipn n l)
      end
  end.

Definition chunk {A : Type} (n : nat) (l : list A) : list (list A) :=
  chunk_upto (length l) n l.

(** [t.view(-1, cols)] of a 3-d tensor: all elements in row-major order,
    regrouped in rows of [cols]. *)
Definition view_rows (cols : nat) (t : tensor3 num) : tensor2 num :=
  chunk cols (concat (concat t)).

(** [m.view(-1, rows, cols, 1)] of a 2-d tensor.  The last axis has one
    element; it is left implicit and the product with a 4-d tensor below
    broadcasts along it. *)
Definition view_blocks (rows cols : nat) (m : tensor2 num) : tensor3 num :=
  chunk rows (chunk cols (concat m)).

(** [b.expand((batch, input_caps, output_caps))] of a 2-d tensor: the
    same matrix for every batch item. *)
Definition expand (batch : nat) (m : tensor2 num) : tensor3 num := repeat m batch.

(** [c.unsqueeze(2) * u_hat] for [c] of shape [input_caps, output_caps]:
    every vote is multiplied by its coefficient, for each batch item.
    The shapes are meant to match: where [c] has another number of rows
    than the votes have input capsules, torch broadcasts a single row or
    raises, and this definition does neither (it stops at the shorter
    list), so what is proved of the values it computes assumes matching
    shapes. *)
Definition mul_c2 (c : tensor2 num) (u_hat : tensor4 num) : tensor4 num :=
  map (zip_with (zip_with (fun cij uij => map (mul cij) uij)) c) u_hat.

(** [c * u_hat] for [c] of shape [batch, input_caps, output_caps, 1]. *)
Definition mul_c3 (c : tensor3 num) (u_hat : tensor4 num) : tensor4 num :=
  zip_with (zip_with (zip_with (fun cij uij => map (mul cij) uij))) c u_hat.

Definition zeros2 (rows cols : nat) : tensor2 num := repeat (repeat zero cols) rows.

(** [t.sum(dim=1)] of a tensor of shape [batch, input_caps, rows, cols]. *)
Definition sum_dim1 (rows cols : nat) (t : tensor4 num) : tensor3 num :=
  map (fold_right (zip_with (zip_with add)) (zeros2 rows cols)) t.

(** [u_hat * v] for [v] of shape [batch, 1, output_caps, output_dim]. *)
Definition mul_u_v (u_hat : tensor4 num) (v : tensor3 num) : tensor4 num :=
  zip_with (fun ub vb => map (fun ui => zip_with (zip_with mul) ui vb) ub)
           u_hat v.

(** [t.sum(-1)] *)
Definition sum_last (t : tensor4 num) : tensor3 num := map (map (map sum)) t.

(** [x + y] for two 3-d tensors of one shape. *)
Definition add3 (x y : tensor3 num) : tensor3 num :=
  zip_with (zip_with (zip_with add)) x y.

(** [range(n)] *)
Definition range (n : Z) : list nat := seq 0 (Z.to_nat n).

End Tensors.

(** ** DynamicRouting *)

Section Routing.
Context {num : Type} `{Scalar num}.

(** [F.softmax] along the last axis of one row: [exp(x_j) / sum_k exp(x_k)]. *)
Definition softmax_row (r : tensor1 num) : tensor1 num :=
  let e := map exp r in
  map (fun x => div x (sum e)) e.

(** [F.softmax(m, dim=1)] of a 2-d tensor. *)
Definition softmax (m : tensor2 num) : tensor2 num := map softmax_row m.

(** The fields of a [DynamicRouting] module (lines 21-24). *)
Record DynamicRouting : Type := {
  n_iterations : Z;
  b : tensor2 num
}.

(** What one pass of the loop body computes (lines 36-41). *)
Record round : Type := {
  rd_b_batch : tensor3 num;
  rd_c : tensor3 num;
  rd_v : tensor3 num
}.

Definition route_round (u_hat : tensor4 num) (b_batch v : tensor3 num) : round :=
  let '(_, input_caps, output_caps, output_dim) := size4 u_hat in
  (* v = v.unsqueeze(1); b_batch = b_batch + (u_hat * v).sum(-1) *)
  let b_batch' := add3 b_batch (sum_last (mul_u_v u_hat v)) in
  (* c = F.softmax(b_batch.view(-1, output_caps), dim=1)
           .view(-1, input_caps, output_caps, 1) *)
  let c := view_blocks input_caps output_caps
             (softmax (view_rows output_caps b_batch')) in
  (* s = (c * u_hat).sum(dim=1); v = squash(s) *)
  let s := sum_dim1 output_caps output_dim (mul_c3 c u_hat) in
  {| rd_b_batch := b_batch'; rd_c := c; rd_v := squash s |}.

(** The [for] loop of line 35 over the values of [r]: the state carried
    from one pass to the next is [b_batch] and [v]. *)
Fixpoint route_loop (rs : list nat) (u_hat : tensor4 num)
         (b_batch v : tensor3 num) : tensor3 num :=
  match rs with
  | [] => v
  | _ :: rs' =>
      let rd := route_round u_hat b_batch v in
      route_loop rs' u_hat (rd_b_batch rd) (rd_v rd)
  end.

(** The coupling of line 29 and the capsules of lines 30-31. *)
Definition initial_c (self : DynamicRouting) : tensor2 num := softmax (b self).

Definition initial_v (self : DynamicRouting) (u_hat : tensor4 num) : tensor3 num :=
  let '(_, _, output_caps, output_dim) := size4 u_hat in
  squash (sum_dim1 output_caps output_dim (mul_c2 (initial_c self) u_hat)).

(** [DynamicRouting.forward], lines 26-43. *)
Definition forward (self : DynamicRouting) (u_hat : tensor4 num) : tensor3 num :=
  let '(batch_size, _, _, _) := size4 u_hat in
  let v := initial_v self u_hat in
  if (0 <? n_iterations self)%Z then
    route_loop (range (n_iterations self)) u_hat
               (expand batch_size (b self)) v
  else v.

(** The same loop, keeping what every pass computed. *)
Fixpoint route_trace (rs : list nat) (u_hat : tensor4 num)
         (b_batch v : tensor3 num) : list round :=
  match rs with
  | [] => []
  | _ :: rs' =>
      let rd := route_round u_hat b_batch v in
      rd :: route_trace rs' u_hat (rd_b_batch rd) (rd_v rd)
  end.

Definition forward_trace (self : DynamicRouting) (u_hat : tensor4 num)
  : list round :=
  let '(batch_size, _, _, _) := size4 u_hat in
  if (0 <? n_iterations self)%Z then
    route_trace (range (n_iterations self)) u_hat
                (expand batch_size (b self)) (initial_v self u_hat)
  else [].

End Routing.


(** ** The routing algorithm, index by index

    A second definition of the routing computation, written from the
    description of the algorithm: coupling coefficients, weighted sums and
    agreements are given entry by entry.  It is compared with [forward]
    below. *)

Definition tabulate {A : Type} (n : nat) (f : nat -> A) : list A :=
  map f (seq 0 n).

Section RoutingSpec.
Context {num : Type} `{Scalar num}.
Variables batch input_caps output_caps output_dim : nat.

Definition entry2 (m : tensor2 num) (i j : nat) : num :=
  nth j (nth i m []) zero.

Definition entry3 (t : tensor3 num) (n i j : nat) : num :=
  nth j (nth i (nth n t []) []) zero.

Definition entry4 (t : tensor4 num) (n i j d : nat) : num :=
  nth d (nth j (nth i (nth n t []) []) []) zero.

(** Softmax along the output-capsule axis: the coefficients of input
    capsule [i] over the output capsules. *)
Definition coupling (logits : nat -> nat -> num) (i j : nat) : num :=
  div (exp (logits i j))
      (sum (tabulate output_caps (fun k => exp (logits i k)))).

(** [s_j = sum_i c_ij * u_hat_ij] for every batch item, then squash. *)
Definition weighted_sum (c : nat -> nat -> nat -> num) (u_hat : tensor4 num)
  : tensor3 num :=
  tabulate batch (fun n =>
    tabulate output_caps (fun j =>
      tabulate output_dim (fun d =>
        sum (tabulate input_caps (fun i =>
               mul (c n i j) (entry4 u_hat n i j d)))))).

Definition capsules (c : nat -> nat -> nat -> num) (u_hat : tensor4 num)
  : tensor3 num :=
  squash (weighted_sum c u_hat).

(** The dot product of the vote of input [i] for output [j] with the
    current output capsule [v_j]. *)
Definition agreement (u_hat : tensor4 num) (v : tensor3 num) (n i j : nat)
  : num :=
  sum (tabulate output_dim (fun d =>
         mul (entry4 u_hat n i j d) (entry3 v n j d))).

(** [k] rounds of refinement from per-batch logits and capsules [v]. *)
Fixpoint refine (k : nat) (u_hat : tensor4 num)
         (logits : nat -> nat -> nat -> num) (v : tensor3 num)
  : tensor3 num :=
  match k with
  | O => v
  | S k' =>
      let logits' := fun n i j => add (logits n i j) (agreement u_hat v n i j) in
      refine k' u_hat logits'
             (capsules (fun n => coupling (logits' n)) u_hat)
  end.

Definition routing_spec (n : Z) (b : tensor2 num) (u_hat : tensor4 num)
  : tensor3 num :=
  refine (Z.to_nat n) u_hat (fun _ => entry2 b)
         (capsules (fun _ => coupling (entry2 b)) u_hat).

End RoutingSpec.

(** ** DynamicRouting on a store

    [self.b] is a parameter: a tensor that lives in storage and is shared
    by all calls.  [expand] returns a view on that storage, not a copy.
    The model keeps the logits tensors in a store and hands them around
    by reference; the other tensors of [forward] are results of
    out-of-place operations that nothing else refers to, and are kept as
    values. *)

Section Store.
Context {num : Type} `{Scalar num}.

Inductive stored : Type :=
| Stored2 (m : tensor2 num)
| Stored3 (t : tensor3 num).

Definition loc : Type := nat.
Definition store : Type := list stored.

(** How a variable refers to a logits tensor: a tensor of its own, or the
    view [expand] gives on a 2-d tensor. *)
Inductive tensor_ref : Type :=
| Own (l : loc)
| ExpandView (l : loc) (batch : nat).

Definition read2 (l : loc) (st : store) : option (tensor2 num) :=
  match nth_error st l with
  | Some (Stored2 m) => Some m
  | _ => None
  end.

Definition read3 (r : tensor_ref) (st : store) : option (tensor3 num) :=
  match r with
  | Own l =>
      match nth_error st l with
      | Some (Stored3 t) => Some t
      | _ => None
      end
  | ExpandView l batch => option_map (expand batch) (read2 l st)
  end.

(** A new tensor: fresh storage after everything allocated so far. *)
Definition alloc (x : stored) (st : store) : loc * store :=
  (length st, st ++ [x]).

(** A [DynamicRouting] object: its parameter is a location. *)
Record DynamicRoutingObj : Type := {
  obj_n_iterations : Z;
  obj_b : loc
}.

(** The loop of lines 35-41.  [b_batch + ...] creates a tensor and the
    name [b_batch] is bound to it; the storage [b_batch] referred to
    before is not written. *)
Fixpoint route_loop_st (rs : list nat) (u_hat : tensor4 num)
         (b_batch : tensor_ref) (v : tensor3 num) (st : store)
  : option (tensor3 num * store) :=
  match rs with
  | [] => Some (v, st)
  | _ :: rs' =>
      match read3 b_batch st with
      | None => None
      | Some old =>
          let rd := route_round u_hat old v in
          let '(l, st') := alloc (Stored3 (rd_b_batch rd)) st in
          route_loop_st rs' u_hat (Own l) (rd_v rd) st'
      end
  end.

(** [DynamicRouting.forward] on the store.  [None]: [self.b] does not
    hold a 2-d tensor. *)
Definition forward_st (self : DynamicRoutingObj) (u_hat : tensor4 num)
           (st : store) : option (tensor3 num * store) :=
  match read2 (obj_b self) st with
  | None => None
  | Some b0 =>
      let '(batch_size, _, _, _) := size4 u_hat in
      let v := initial_v {| n_iterations := obj_n_iterations self; b := b0 |}
                         u_hat in
      if (0 <? obj_n_iterations self)%Z then
        route_loop_st (range (obj_n_iterations self)) u_hat
                      (ExpandView (obj_b self) batch_size) v st
      else Some (v, st)
  end.

End Store.

Arguments stored num : clear implicits.
Arguments store num : clear implicits.

(** ** MarginLoss *)

Section Loss.
Context {num : Type} `{Scalar num}.

Record MarginLoss : Type := {
  m_plus : num;
  m_minus : num;
  lambda_ : num
}.

(** Row [row] with a one written at column [k]. *)
Fixpoint set_one (k : nat) (row : list Z) : list Z :=
  match row, k with
  | [], _ => []
  | _ :: row', O => 1%Z :: row'
  | x :: row', S k' => x :: set_one k' row'
  end.

(** [t.scatter_(1, targets.view(-1, 1), 1)]: row [i] of [t] gets a one at
    column [targets[i]].  An index outside the row, or more indices than
    rows, is an error. *)
Fixpoint scatter_ (t : list (list Z)) (targets : list Z)
  : option (list (list Z)) :=
  match targets, t with
  | [], _ => Some t
  | k :: ks, row :: rows =>
      if ((0 <=? k)%Z && (k <? Z.of_nat (length row))%Z)%bool then
        option_map (cons (set_one (Z.to_nat k) row)) (scatter_ rows ks)
      else None
  | _ :: _, [] => None
  end.

(** The loss of one entry (lines 123-124): [t] is the entry of the
    one-hot mask, [len] the capsule length. *)
Definition entry_loss (self : MarginLoss) (t : Z) (len : num) : num :=
  add (mul (of_int t) (pow2 (relu (sub (m_plus self) len))))
      (mul (mul (lambda_ self) (sub one (of_int t)))
           (pow2 (relu (sub len (m_minus self))))).

Definition losses (self : MarginLoss) (t : list (list Z))
           (length_ : tensor2 num) : tensor2 num :=
  zip_with (zip_with (entry_loss self)) t length_.

(** [losses.sum()] and [losses.mean()] over all entries. *)
Definition sum_all (x : tensor2 num) : num := sum (concat x).

Definition mean_all (x : tensor2 num) : num :=
  div (sum_all x) (of_int (Z.of_nat (length (concat x)))).

(** [MarginLoss.forward], lines 116-125.  The flag [loss_sum] selects the
    mean when it is true and the sum when it is false. *)
Definition loss_forward (self : MarginLoss) (length_ : tensor2 num)
           (targets : list Z) (loss_sum : bool) : option num :=
  (* t = torch.zeros(length.size()).long() *)
  let t := map (map (fun _ => 0%Z)) length_ in
  match scatter_ t targets with
  | None => None
  | Some t' =>
      let ls := losses self t' length_ in
      Some (if loss_sum then mean_all ls else sum_all ls)
  end.

End Loss.

(** ** Shapes

    The shape every tensor operation of [CapsuleNet.forward] produces,
    with [None] where the operation raises a size error.  The layers are
    written a second time over shapes, line by line. *)

Module Shape.

Definition shape : Type := list N.

Definition bind {A B : Type} (x : option A) (f : A -> option B) : option B :=
  match x with
  | Some a => f a
  | None => None
  end.

Notation "x <- e ;; k" := (bind e (fun x => k))
  (at level 61, e at next level, right associativity).

Definition numel (s : shape) : N := fold_right N.mul 1%N s.

(** [nn.Conv2d(cin, cout, kernel_size=k, stride=s)] on [n, c, h, w]: no
    padding, no dilation, so each side becomes [(side - k) / s + 1]. *)
Definition conv2d (cin cout k s : N) (x : shape) : option shape :=
  match x with
  | [n; c; h; w] =>
      if ((c =? cin) && (1 <=? k) && (k <=? h) && (k <=? w) && (1 <=? s))%N%bool
      then Some [n; cout; ((h - k) / s + 1)%N; ((w - k) / s + 1)%N]
      else None
  | _ => None
  end.

(** [x.view(dims)], where [None] stands for the size [-1] to infer. *)
Definition view (dims : list (option N)) (x : shape) : option shape :=
  let known :=
    fold_right (fun d p => match d with Some k => (k * p)%N | None => p end)
               1%N dims in
  let holes := length (filter (fun d => match d with None => true | _ => false end) dims) in
  match holes with
  | O => if (known =? numel x)%N
         then Some (map (fun d => match d with Some k => k | None => 0%N end) dims)
         else None
  | S O => if ((0 <? known) && (numel x mod known =? 0))%N%bool
           then Some (map (fun d => match d with
                                    | Some k => k
                                    | None => (numel x / known)%N
                                    end) dims)
           else None
  | _ => None
  end.

(** [x.permute(p)] *)
Definition permute (p : list nat) (x : shape) : option shape :=
  if (length p =? length x)%nat && forallb (fun i => (i <? length x)%nat) p
  then Some (map (fun i => nth i x 0%N) p)
  else None.

(** [x.unsqueeze(k)] *)
Definition unsqueeze (k : nat) (x : shape) : option shape :=
  if (k <=? length x)%nat then Some (firstn k x ++ 1%N :: skipn k x) else None.

(** [x.sum(dim=k)] *)
Definition sum_dim (k : nat) (x : shape) : option shape :=
  if (k <? length x)%nat then Some (firstn k x ++ skipn (S k) x) else None.

(** Broadcasting of two shapes, from the last axis backwards. *)
Fixpoint broadcast_rev (x y : list N) : option (list N) :=
  match x, y with
  | [], _ => Some y
  | _, [] => Some x
  | a :: x', c :: y' =>
      if (a =? c)%N then option_map (cons a) (broadcast_rev x' y')
      else if (a =? 1)%N then option_map (cons c) (broadcast_rev x' y')
      else if (c =? 1)%N then option_map (cons a) (broadcast_rev x' y')
      else None
  end.

Definition broadcast (x y : shape) : option shape :=
  option_map (@rev N) (broadcast_rev (rev x) (rev y)).

(** [x.expand(target)] *)
Definition expand (target x : shape) : option shape :=
  match broadcast x target with
  | Some r => if list_eq_dec N.eq_dec r target then Some target else None
  | None => None
  end.

(** [x.matmul(w)] for tensors with at least two axes: the last two are
    multiplied as matrices, the leading ones are broadcast. *)
Definition matmul (x w : shape) : option shape :=
  match rev x, rev w with
  | m :: n :: xb, p :: m' :: wb =>
      if (m =? m')%N
      then option_map (fun bs => rev bs ++ [n; p]) (broadcast_rev xb wb)
      else None
  | _, _ => None
  end.

(** [squash], lines 14-18. *)
Definition squash (vec : shape) : option shape :=
  lensq <- sum_dim 2 vec ;;
  factor <- view [Some (nth 0 vec 0%N); Some (nth 1 vec 0%N); Some 1%N] lensq ;;
  broadcast vec factor.

(** One pass of the routing loop, lines 36-41: the shapes of [b_batch]
    and [v] after it. *)
Definition route_round (input_caps output_caps : N) (u_hat : shape)
           (st : shape * shape) : option (shape * shape) :=
  let '(b_batch, v) := st in
  v1 <- unsqueeze 1 v ;;
  uv <- broadcast u_hat v1 ;;
  agree <- sum_dim 3 uv ;;
  b_batch' <- broadcast b_batch agree ;;
  rows <- view [None; Some output_caps] b_batch' ;;
  c <- view [None; Some input_caps; Some output_caps; Some 1%N] rows ;;
  cu <- broadcast c u_hat ;;
  s <- sum_dim 1 cu ;;
  v' <- squash s ;;
  Some (b_batch', v').

Fixpoint route_loop (rs : list nat) (input_caps output_caps : N)
         (u_hat : shape) (st : shape * shape) : option (shape * shape) :=
  match rs with
  | [] => Some st
  | _ :: rs' =>
      st' <- route_round input_caps output_caps u_hat st ;;
      route_loop rs' input_caps output_caps u_hat st'
  end.

(** [DynamicRouting.forward], lines 26-43, for a parameter [b] of shape
    [b_shape]. *)
Definition DynamicRouting_forward (n_iterations : Z) (b_shape u_hat : shape)
  : option shape :=
  match u_hat with
  | [batch_size; input_caps; output_caps; output_dim] =>
      c <- unsqueeze 2 b_shape ;;
      cu <- broadcast c u_hat ;;
      s <- sum_dim 1 cu ;;
      v <- squash s ;;
      if (0 <? n_iterations)%Z then
        b_batch <- expand [batch_size; input_caps; output_caps] b_shape ;;
        st <- route_loop (range n_iterations) input_caps output_caps u_hat
                         (b_batch, v) ;;
        Some (snd st)
      else Some v
  | _ => None
  end.

(** [FirstCapsuleLayer.forward], lines 54-63. *)
Definition FirstCapsuleLayer_forward
           (input_channels output_caps output_dim kernel_size stride : N)
           (input : shape) : option shape :=
  out <- conv2d input_channels (output_caps * output_dim) kernel_size stride
                input ;;
  match out with
  | [n; _; h; w] =>
      out <- view [Some n; Some output_caps; Some output_dim; Some h; Some w]
                  out ;;
      out <- permute [0; 1; 3; 4; 2]%nat out ;;
      out <- view [Some (nth 0 out 0%N); None; Some (nth 4 out 0%N)] out ;;
      squash out
  | _ => None
  end.

(** [CapsLayer.forward], lines 80-85, with weights of shape
    [input_caps, input_dim, output_dim * output_caps] and a routing module
    whose [b] has shape [b_shape]. *)
Definition CapsLayer_forward
           (input_caps input_dim output_caps output_dim : N)
           (n_iterations : Z) (b_shape : shape) (x : shape) : option shape :=
  x <- unsqueeze 2 x ;;
  u_hat <- matmul x [input_caps; input_dim; (output_dim * output_caps)%N] ;;
  u_hat <- view [Some (nth 0 u_hat 0%N); Some input_caps; Some output_caps;
                 Some output_dim] u_hat ;;
  DynamicRouting_forward n_iterations b_shape u_hat.

(** [self.num_firstCaps = 32 * 6 * 6], line 98. *)
Definition num_firstCaps : N := (32 * 6 * 6)%N.

(** The stages of [CapsuleNet.forward], lines 101-108, for the layers
    built in lines 96-100. *)
Definition CapsuleNet_conv1 (x : shape) : option shape :=
  (* F.relu keeps the shape *)
  conv2d 1 256 9 1 x.

Definition CapsuleNet_firstCaps (x : shape) : option shape :=
  FirstCapsuleLayer_forward 256 32 8 9 2 x.

Definition CapsuleNet_Caps (routing_iterations : Z) (n_classes : N) (x : shape)
  : option shape :=
  CapsLayer_forward num_firstCaps 8 n_classes 16 routing_iterations
                    [num_firstCaps; n_classes] x.

(** [probs = x.pow(2).sum(dim=2).sqrt()] *)
Definition CapsuleNet_probs (x : shape) : option shape := sum_dim 2 x.

Definition CapsuleNet_forward (routing_iterations : Z) (n_classes : N)
           (x : shape) : option (shape * shape) :=
  x <- CapsuleNet_conv1 x ;;
  x <- CapsuleNet_firstCaps x ;;
  x <- CapsuleNet_Caps routing_iterations n_classes x ;;
  probs <- CapsuleNet_probs x ;;
  Some (x, probs).

End Shape.

(** ** Reading real tensors as [xreal] tensors *)

Definition lift1 (v : list R) : list xreal := map Fin v.
Definition lift2 (m : list (list R)) : list (list xreal) := map lift1 m.
Definition lift3 (t : list (list (list R))) : list (list (list xreal)) :=
  map lift2 t.

Definition sumsq (v : list R) : R :=
  fold_right Rplus 0%R (map (fun x => (x * x)%R) v).

Definition norm (v : list R) : R := R_sqrt.sqrt (sumsq v).

Definition scale (k : R) (v : list R) : list R := map (fun x => (x * k)%R) v.

(** [v * (s / (1 + s)) / sqrt s] for [s] the squared norm of [v]. *)
Definition squash_formula (v : list R) : list R :=
  let s := sumsq v in
  map (fun x => (x * (s / (1 + s)) / R_sqrt.sqrt s)%R) v.

Definition Rsum (l : list R) : R := fold_right Rplus 0%R l.

(** A row of coefficients that is a probability distribution: finite,
    non-negative, of sum one. *)
Definition distribution (c : list xreal) : Prop :=
  exists p : list R,
    c = lift1 p /\ Forall (fun x => (0 <= x)%R) p /\ Rsum p = 1%R.

(** The margin loss as it is described, entry by entry: for the target
    class [max(0, m_plus - length)^2], for any other class
    [lambda * max(0, length - m_minus)^2]. *)
Definition penalty (mp mm lam : R) (is_target : bool) (len : R) : R :=
  if is_target
  then (Rmax 0 (mp - len) * Rmax 0 (mp - len))%R
  else (lam * (Rmax 0 (len - mm) * Rmax 0 (len - mm)))%R.

(** The penalties of the classes [j, j + 1, ...] with lengths [row], for
    the target class [k]. *)
Fixpoint penalties_from (mp mm lam : R) (j : nat) (k : Z) (row : list R)
  : list R :=
  match row with
  | [] => []
  | len :: row' =>
      penalty mp mm lam (Z.of_nat j =? k)%Z len
      :: penalties_from mp mm lam (S j) k row'
  end.

Definition penalties (mp mm lam : R) (lens : list (list R)) (targets : list Z)
  : list (list R) :=
  zip_with (fun row k => penalties_from mp mm lam 0 k row) lens targets.

(** The factor [lensq / (1 + lensq) / length] of a vector that is not
    zero. *)
Definition squash_factor (v : list R) : R :=
  (sumsq v / (1 + sumsq v) / R_sqrt.sqrt (sumsq v))%R.

(** What [squash] does to one capsule vector. *)
Definition squash_vec {num : Type} `{Arith num} (v : tensor1 num) : tensor1 num :=
  let lensq := sum (map pow2 v) in
  map (fun x => mul x (div (div lensq (add one lensq)) (sqrt lensq))) v.

(** Tensors of shape [b, c], [a, b, c] and [z, a, b, c]. *)
Definition shape2 {A : Type} (b c : nat) (m : list (list A)) : Prop :=
  length m = b /\ Forall (fun v => length v = c) m.

Definition shape3 {A : Type} (a b c : nat) (t : list (list (list A))) : Prop :=
  length t = a /\ Forall (shape2 b c) t.

Definition shape4 {A : Type} (z a b c : nat) (t : list (list (list (list A))))
  : Prop :=
  length t = z /\ Forall (shape3 a b c) t.

(** ** Construction of the routing module *)

Section Construction.
Context {num : Type} `{Scalar num}.

(** [DynamicRouting.__init__], lines 21-24: the logits start at zero. *)
Definition DynamicRouting_init (input_caps output_caps : nat) (n : Z)
  : DynamicRouting :=
  {| n_iterations := n; b := zeros2 input_caps output_caps |}.

End Construction.

(** ** The layers around the routing *)

Section LayerModels.
Context {num : Type} `{Scalar num}.

(** The elements of a 4-d tensor in row-major order, as [view] reads
    them. *)
Definition flat4 (t : tensor4 num) : list num := concat (concat (concat t)).

(** [out.view(N, self.output_caps, self.output_dim, H, W)], line 57. *)
Definition view5 (caps dim h w : nat) (t : tensor4 num) : list (tensor4 num) :=
  chunk caps (chunk dim (chunk h (chunk w (flat4 t)))).

(** [out.permute(0, 1, 3, 4, 2).contiguous()], line 59, on a tensor of
    shape [N, caps, dim, h, w]: the axis of the capsule dimension becomes
    the last one. *)
Definition permute_01342 (h w : nat) (t : list (tensor4 num))
  : list (tensor4 num) :=
  map (map (fun m =>
         tabulate h (fun y => tabulate w (fun x =>
           map (fun plane => nth x (nth y plane []) zero) m)))) t.

(** [out.view(out.size(0), -1, out.size(4))], line 60. *)
Definition view_caps (n dim : nat) (t : list (tensor4 num)) : tensor3 num :=
  let vecs := chunk dim (concat (concat (concat (concat t)))) in
  chunk (length vecs / n) vecs.

(** [FirstCapsuleLayer.forward], lines 54-63.  [conv1] is the convolution
    of the layer, a function of the library with weights of its own. *)
Definition FirstCapsuleLayer_forward (conv1 : tensor4 num -> tensor4 num)
           (output_caps output_dim : nat) (input : tensor4 num) : tensor3 num :=
  let out := conv1 input in
  let '(N, _, H, W) := size4 out in
  let out := view5 output_caps output_dim H W out in
  let out := permute_01342 H W out in
  let out := view_caps N output_dim out in
  squash out.

(** The fields of a [CapsLayer] (lines 66-74). *)
Record CapsLayer : Type := {
  input_caps : nat;
  input_dim : nat;
  output_caps : nat;
  output_dim : nat;
  weights : tensor3 num;
  routing_module : @DynamicRouting num
}.

(** A row vector times a matrix. *)
Definition vec_mat (x : tensor1 num) (w : tensor2 num) : tensor1 num :=
  tabulate (length (hd [] w))
           (fun c => sum (zip_with (fun xk wk => mul xk (nth c wk zero)) x w)).

(** [x.unsqueeze(2).matmul(self.weights)], lines 81-82: every capsule
    [x[b, i]], as a row vector, times the matrix [weights[i]]; the result
    has shape [batch, input_caps, 1, output_dim * output_caps]. *)
Definition matmul_weights (x w : tensor3 num) : tensor4 num :=
  map (fun xb => zip_with (fun xi wi => [vec_mat xi wi]) xb w) x.

(** [u_hat.view(u_hat.size(0), input_caps, output_caps, output_dim)],
    line 83. *)
Definition view_votes (caps_in caps_out dim : nat) (t : tensor4 num)
  : tensor4 num :=
  chunk caps_in (chunk caps_out (chunk dim (flat4 t))).

(** The vote of input capsule [i] for output capsule [j], component [d]:
    the capsule [x[n, i]], of dimension [dim_in], against column
    [j * dim_out + d] of [weights[i]]. *)
Definition vote (dim_in dim_out : nat) (x w : tensor3 num) (n i j d : nat)
  : num :=
  sum (tabulate dim_in (fun k =>
         mul (entry3 x n i k) (entry3 w i k (j * dim_out + d)))).

(** [CapsLayer.forward], lines 80-85. *)
Definition CapsLayer_forward (self : CapsLayer) (x : tensor3 num)
  : tensor3 num :=
  let u_hat := matmul_weights x (weights self) in
  let u_hat := view_votes (input_caps self) (output_caps self)
                          (output_dim self) u_hat in
  forward (routing_module self) u_hat.

End LayerModels.

(** Capsules of shape [batch, output_caps, output_dim] that are not
    numbers, and votes of shape [batch, input_caps, output_caps,
    output_dim] that are all zero. *)
Definition nan_capsules (B O D : nat) : tensor3 xreal :=
  repeat (repeat (repeat NaN D) O) B.

Definition zero_votes (B I O D : nat) : tensor4 xreal :=
  repeat (repeat (repeat (repeat (Fin 0) D) O) I) B.

(** * Proofs *)

(** ** Lists *)

Lemma zip_with_map {A B C D : Type} (f : B -> C -> D) (g : A -> B) (h : A -> C)
      (l : list A) :
  zip_with f (map g l) (map h l) = map (fun x => f (g x) (h x)) l.
Proof.
  induction l as [|x l IH]; simpl; [reflexivity|].
  now rewrite IH.
Qed.

Lemma zip_with_map_l {A B C : Type} (f : A -> B -> C) (h : A -> B) (l : list A) :
  zip_with f l (map h l) = map (fun x => f x (h x)) l.
Proof.
  induction l as [|x l IH]; simpl; [reflexivity|].
  now rewrite IH.
Qed.

Lemma nth_map_nil {A B : Type} (f : list A -> list B) (m : list (list A))
      (i : nat) :
  f [] = [] -> nth i (map f m) [] = f (nth i m []).
Proof.
  intros Hf.
  transitivity (nth i (map f m) (f [])); [now rewrite Hf | apply map_nth].
Qed.

Lemma nth_map_map {A B : Type} (f : list A -> list B) (t : list (list (list A)))
      (i j : nat) :
  f [] = [] ->
  nth j (nth i (map (map f) t) []) [] = f (nth j (nth i t []) []).
Proof.
  intros Hf.
  change (nth i (map (map f) t) []) with (nth i (map (map f) t) (map f [])).
  rewrite map_nth.
  transitivity (nth j (map f (nth i t [])) (f [])); [now rewrite Hf|].
  apply map_nth.
Qed.

(** ** squash, vector by vector *)

Lemma squash_map {num : Type} `{Arith num} (vec : tensor3 num) :
  squash vec = map (map squash_vec) vec.
Proof.
  unfold squash.
  rewrite !map_map.
  rewrite !zip_with_map, zip_with_map_l.
  apply map_ext; intros m.
  rewrite !map_map.
  rewrite !zip_with_map, zip_with_map_l.
  reflexivity.
Qed.

Lemma squash_keeps_shape {num : Type} `{Arith num} (a c d : nat)
      (t : tensor3 num) :
  shape3 a c d t -> shape3 a c d (squash t).
Proof.
  rewrite squash_map. intros [Ha Hms]. split; [now rewrite length_map|].
  rewrite Forall_map. eapply Forall_impl; [|exact Hms].
  intros m [Hc Hvs]. split; [now rewrite length_map|].
  rewrite Forall_map. eapply Forall_impl; [|exact Hvs].
  intros v Hv. unfold squash_vec. now rewrite length_map.
Qed.

Section SquashReal.
Local Open Scope R_scope.

Lemma xdiv_fin (a c : R) : c <> 0 -> xdiv (Fin a) (Fin c) = Fin (a / c).
Proof.
  intros Hc. unfold xdiv.
  destruct (Req_dec_T c 0) as [E|_]; [contradiction | reflexivity].
Qed.

Lemma xdiv_zero (a : R) : xdiv (Fin a) (Fin 0) = NaN.
Proof.
  unfold xdiv.
  destruct (Req_dec_T 0 0) as [_|E]; [reflexivity | now destruct E].
Qed.

Lemma xsqrt_fin (a : R) : 0 <= a -> xsqrt (Fin a) = Fin (R_sqrt.sqrt a).
Proof.
  intros Ha. unfold xsqrt.
  destruct (Rlt_dec a 0) as [E|_]; [lra | reflexivity].
Qed.

Lemma sumsq_nonneg (v : list R) : 0 <= sumsq v.
Proof.
  induction v as [|x v IH]; unfold sumsq in *; simpl; [lra|].
  pose proof (Rle_0_sqr x) as Hx. unfold Rsqr in Hx. lra.
Qed.

Lemma sumsq_zero (v : list R) : sumsq v = 0 <-> Forall (fun x => x = 0) v.
Proof.
  induction v as [|x v IH].
  - split; [constructor | reflexivity].
  - pose proof (sumsq_nonneg v) as Hv.
    pose proof (Rle_0_sqr x) as Hx. unfold Rsqr in Hx.
    change (sumsq (x :: v)) with (x * x + sumsq v).
    split.
    + intros Hs.
      assert (Hxx : x * x = 0) by lra.
      assert (Hvv : sumsq v = 0) by lra.
      constructor; [| now apply IH].
      destruct (Rmult_integral _ _ Hxx); assumption.
    + intros Hall. inversion Hall as [|? ? Hx0 Hv0]; subst.
      apply IH in Hv0. rewrite Hv0. lra.
Qed.

Lemma sum_pow2_lift (v : list R) : sum (map pow2 (lift1 v)) = Fin (sumsq v).
Proof.
  induction v as [|x v IH]; [reflexivity|].
  unfold lift1, sum in *. cbn [map fold_right].
  rewrite IH. reflexivity.
Qed.

Lemma sumsq_scale (k : R) (v : list R) : sumsq (scale k v) = k * k * sumsq v.
Proof.
  induction v as [|x v IH]; unfold sumsq, scale in *; simpl; [lra|].
  rewrite IH. lra.
Qed.

Lemma squash_factor_pos (v : list R) : sumsq v <> 0 -> 0 < squash_factor v.
Proof.
  intros Hs. pose proof (sumsq_nonneg v) as Hn.
  assert (Hpos : 0 < sumsq v) by lra.
  unfold squash_factor.
  apply Rdiv_lt_0_compat; [apply Rdiv_lt_0_compat; lra|].
  now apply sqrt_lt_R0.
Qed.

Lemma squash_vec_lift (v : list R) :
  sumsq v <> 0 ->
  squash_vec (lift1 v) = lift1 (scale (squash_factor v) v).
Proof.
  intros Hs. pose proof (sumsq_nonneg v) as Hn.
  assert (Hpos : 0 < sumsq v) by lra.
  pose proof (sqrt_lt_R0 _ Hpos) as Hq.
  unfold squash_vec. rewrite sum_pow2_lift.
  cbn [add one div sqrt mul xreal_arith xlift2].
  rewrite xsqrt_fin by lra.
  rewrite xdiv_fin by lra.
  rewrite xdiv_fin by lra.
  unfold lift1, scale. rewrite !map_map. reflexivity.
Qed.

Lemma norm_scale_squash (v : list R) :
  sumsq v <> 0 ->
  norm (scale (squash_factor v) v) = sumsq v / (1 + sumsq v).
Proof.
  intros Hs. pose proof (sumsq_nonneg v) as Hn.
  assert (Hpos : 0 < sumsq v) by lra.
  pose proof (sqrt_lt_R0 _ Hpos) as Hq.
  pose proof (squash_factor_pos v Hs) as Hk.
  unfold norm. rewrite sumsq_scale.
  rewrite sqrt_mult_alt by nra.
  rewrite sqrt_square by lra.
  unfold squash_factor. field. lra.
Qed.

Lemma squash_formula_scale (v : list R) :
  squash_formula v = scale (squash_factor v) v.
Proof.
  unfold squash_formula, scale, squash_factor.
  apply map_ext; intros x. unfold Rdiv. ring.
Qed.

Lemma norm_nonzero_sumsq (v : list R) : norm v <> 0 -> sumsq v <> 0.
Proof.
  intros Hn Hs. apply Hn. unfold norm. rewrite Hs. apply sqrt_0.
Qed.

Lemma squash_lift (t : list (list (list R))) :
  (forall m v, In m t -> In v m -> sumsq v <> 0) ->
  squash (lift3 t) = lift3 (map (map squash_formula) t).
Proof.
  intros Hnz. rewrite squash_map.
  unfold lift3, lift2. rewrite !map_map.
  apply map_ext_in; intros m Hm. rewrite !map_map.
  apply map_ext_in; intros v Hv.
  rewrite squash_formula_scale.
  apply squash_vec_lift. now apply (Hnz m).
Qed.

Lemma squash_zeros (d : nat) :
  squash [[repeat (Fin 0) (S d)]] = [[repeat NaN (S d)]].
Proof.
  rewrite squash_map. cbn [map]. do 2 f_equal.
  assert (Hs : sum (map pow2 (repeat (Fin 0) (S d))) = Fin 0).
  { rewrite <- (map_repeat 0 (S d) Fin).
    change (map Fin (repeat 0 (S d))) with (lift1 (repeat 0 (S d))).
    rewrite sum_pow2_lift. f_equal.
    apply sumsq_zero. apply Forall_forall.
    intros x Hx. now apply repeat_spec in Hx. }
  unfold squash_vec. rewrite Hs.
  cbn [add one div sqrt mul xreal_arith xlift2].
  rewrite xsqrt_fin by lra. rewrite sqrt_0.
  rewrite xdiv_fin by lra. rewrite xdiv_zero.
  now rewrite map_repeat.
Qed.

(** C3: the zero vector is not guarded.  For a capsule vector of zeros
    [lensq] and [length] are zero, the factor is zero divided by zero, and
    every component of the result is not a number: in exact arithmetic for
    any dimension, and in IEEE binary64 on the tensor [[[0, 0]]]. *)
Theorem squash_zero_vector_nan :
  (forall d : nat,
      squash [[repeat (Fin 0) (S d)]] = [[repeat NaN (S d)]]) /\
  squash (num := float) [[[0%float; 0%float]]] = [[[nan; nan]]].
Proof.
  split.
  - exact squash_zeros.
  - vm_compute. reflexivity.
Qed.

(** In exact arithmetic: the tensor of [v * (s / (1 + s)) / sqrt s], its
    shape, and the norms of its vectors. *)
Lemma squash_exact_range (B N D : nat) (t : list (list (list R))) :
  shape3 B N D t ->
  (forall m v, In m t -> In v m -> norm v <> 0) ->
  squash (lift3 t) = lift3 (map (map squash_formula) t) /\
  shape3 B N D (map (map squash_formula) t) /\
  (forall m v, In m (map (map squash_formula) t) -> In v m ->
               0 <= norm v < 1).
Proof.
  intros [HB Hrows] Hnz.
  assert (Hnz' : forall m v, In m t -> In v m -> sumsq v <> 0).
  { intros m v Hm Hv. apply norm_nonzero_sumsq. now apply (Hnz m). }
  split; [now apply squash_lift|]. split.
  - split; [now rewrite length_map|].
    rewrite Forall_map. eapply Forall_impl; [|exact Hrows].
    intros m [Hlen Hvs]. split; [now rewrite length_map|].
    rewrite Forall_map. eapply Forall_impl; [|exact Hvs].
    intros v Hv. unfold squash_formula. now rewrite length_map.
  - intros m' v' Hm' Hv'.
    apply in_map_iff in Hm' as [m [<- Hm]].
    apply in_map_iff in Hv' as [v [<- Hv]].
    specialize (Hnz' m v Hm Hv).
    rewrite squash_formula_scale, norm_scale_squash by assumption.
    pose proof (sumsq_nonneg v) as Hs.
    assert (Hpos : 0 < sumsq v) by lra.
    split.
    + apply Rlt_le, Rdiv_lt_0_compat; lra.
    + apply Rmult_lt_reg_r with (r := 1 + sumsq v); [lra|].
      unfold Rdiv. rewrite Rmult_assoc, Rinv_l by lra. lra.
Qed.

(** C4: in every arithmetic, IEEE binary64 included, [squash] returns a
    tensor of the shape [batch, num_capsules, dim] of its argument in which
    every capsule vector [v] is replaced by [v * ((s / (1 + s)) / sqrt s)],
    with [s] the sum of the squares of [v], all computed in that
    arithmetic.  In exact arithmetic (real numbers: no rounding, no
    overflow, no underflow), when every vector has a norm that is not zero,
    this is the tensor of the vectors [v * (s / (1 + s)) / sqrt s], and
    every vector of the result has its norm in [0, 1). *)
Theorem squash_formula_range :
  (forall (num : Type) (A : Arith num) (B N D : nat) (t : tensor3 num),
      shape3 B N D t ->
      squash t
      = map (map (fun v =>
                    let s := sum (map pow2 v) in
                    map (fun x => mul x (div (div s (add one s)) (sqrt s))) v))
            t
      /\ shape3 B N D (squash t))
  /\ (forall (B N D : nat) (t : list (list (list R))),
        shape3 B N D t ->
        (forall m v, In m t -> In v m -> norm v <> 0) ->
        squash (lift3 t) = lift3 (map (map squash_formula) t) /\
        shape3 B N D (map (map squash_formula) t) /\
        (forall m v, In m (map (map squash_formula) t) -> In v m ->
                     0 <= norm v < 1)).
Proof.
  split.
  - intros num A B N D t Ht. split.
    + apply squash_map.
    + now apply squash_keeps_shape.
  - exact squash_exact_range.
Qed.

Lemma squash_formula_range_witness :
  squash (lift3 [[[1]]]) = lift3 (map (map squash_formula) [[[1]]]) /\
  shape3 1 1 1 (map (map squash_formula) [[[1]]]) /\
  (forall m v, In m (map (map squash_formula) [[[1]]]) -> In v m ->
               0 <= norm v < 1).
Proof.
  apply (proj2 squash_formula_range 1%nat 1%nat 1%nat [[[1]]]).
  - split; [reflexivity|]. repeat constructor.
  - intros m v [<-|[]] [<-|[]].
    unfold norm, sumsq. simpl.
    replace (1 * 1 + 0) with 1 by lra. rewrite sqrt_1. lra.
Defined.

(** With rounding the norm is not always below one: in IEEE binary64, for
    the vector [1e10, 0], [1 + lensq] rounds to [lensq], the factor is
    [1e-10], and [squash] returns the vector [1, 0]; its norm, computed as
    in line 107, is one, and [1 < 1] is false. *)
Lemma squash_binary64_norm_one :
  squash (num := float) [[[10000000000%float; 0%float]]]
  = [[[1%float; 0%float]]]
  /\ map (map (fun p => PrimFloat.ltb p 1%float))
         (lengths (squash (num := float) [[[10000000000%float; 0%float]]]))
     = [[false]].
Proof. split; vm_compute; reflexivity. Qed.

(** In exact arithmetic a vector with a component that is not zero is
    multiplied by a positive number. *)
Lemma squash_exact_direction (t : tensor3 xreal) (i j : nat) (v : list R) :
  nth j (nth i t []) [] = lift1 v ->
  ~ Forall (fun x => x = 0) v ->
  exists k : R, 0 < k /\ nth j (nth i (squash t) []) [] = lift1 (scale k v).
Proof.
  intros Hv Hnz.
  assert (Hs : sumsq v <> 0) by (intros E; now apply Hnz, sumsq_zero).
  exists (squash_factor v). split; [now apply squash_factor_pos|].
  rewrite squash_map.
  rewrite (nth_map_map squash_vec t i j eq_refl).
  rewrite Hv. now apply squash_vec_lift.
Qed.

(** C5: in every arithmetic, IEEE binary64 included, [squash] multiplies
    all the components of a capsule vector [v] by one and the same number
    [k = (s / (1 + s)) / sqrt s], with [s] the sum of the squares of [v]
    computed in that arithmetic.  In exact arithmetic (real numbers: no
    rounding, no overflow, no underflow), for a finite vector [v] with a
    component that is not zero, [k > 0]: the result is a positive multiple
    of [v]. *)
Theorem squash_direction :
  (forall (num : Type) (A : Arith num) (t : tensor3 num) (i j : nat),
      let v := nth j (nth i t []) [] in
      let s := sum (map pow2 v) in
      nth j (nth i (squash t) []) []
      = map (fun x => mul x (div (div s (add one s)) (sqrt s))) v)
  /\ (forall (t : tensor3 xreal) (i j : nat) (v : list R),
        nth j (nth i t []) [] = lift1 v ->
        ~ Forall (fun x => x = 0) v ->
        exists k : R,
          0 < k /\ nth j (nth i (squash t) []) [] = lift1 (scale k v)).
Proof.
  split.
  - intros num A t i j v s. rewrite squash_map.
    apply (nth_map_map squash_vec t i j eq_refl).
  - exact squash_exact_direction.
Qed.

Lemma squash_direction_witness :
  exists k : R,
    0 < k /\ nth 0 (nth 0 (squash [[[Fin 2; Fin 0]]]) []) [] = lift1 (scale k [2; 0]).
Proof.
  apply (proj2 squash_direction [[[Fin 2; Fin 0]]] 0%nat 0%nat [2; 0]).
  - reflexivity.
  - intros Hall. inversion Hall as [|? ? H2 _]. lra.
Defined.

(** In IEEE binary64 a finite vector that is not zero is not always mapped
    to a multiple of itself: for [2^-540, 2^-540] the sum of the squares
    underflows to zero and the factor is zero divided by zero; for
    [2^600, 0] it overflows to infinity and the factor is infinity divided
    by infinity.  Both results are not a number in every component. *)
Lemma squash_binary64_direction_lost :
  squash (num := float) [[[0x1p-540%float; 0x1p-540%float]]] = [[[nan; nan]]]
  /\ squash (num := float) [[[0x1p600%float; 0%float]]] = [[[nan; nan]]].
Proof. split; vm_compute; reflexivity. Qed.

End SquashReal.

(** ** Tensors given entry by entry *)

Section Tabulate.
Context {A : Type}.

Lemma length_tabulate (n : nat) (f : nat -> A) : length (tabulate n f) = n.
Proof. unfold tabulate. now rewrite length_map, length_seq. Qed.

Lemma nth_tabulate (n : nat) (f : nat -> A) (i : nat) (d : A) :
  i < n -> nth i (tabulate n f) d = f i.
Proof.
  intros Hi. unfold tabulate.
  rewrite (nth_indep _ d (f 0)) by (rewrite length_map, length_seq; lia).
  rewrite map_nth, seq_nth by lia. reflexivity.
Qed.

Lemma tabulate_ext (n : nat) (f g : nat -> A) :
  (forall i, i < n -> f i = g i) -> tabulate n f = tabulate n g.
Proof.
  intros Hfg. apply map_ext_in. intros i Hi.
  apply in_seq in Hi. apply Hfg. lia.
Qed.

Lemma tabulate_nth (l : list A) (d : A) :
  tabulate (length l) (fun i => nth i l d) = l.
Proof.
  apply nth_ext with (d := d) (d' := d).
  - apply length_tabulate.
  - intros i Hi. rewrite length_tabulate in Hi. now apply nth_tabulate.
Qed.

Lemma repeat_tabulate (x : A) (n : nat) : repeat x n = tabulate n (fun _ => x).
Proof.
  apply nth_ext with (d := x) (d' := x).
  - now rewrite repeat_length, length_tabulate.
  - intros i Hi. rewrite repeat_length in Hi.
    rewrite nth_tabulate by assumption. apply nth_repeat.
Qed.

End Tabulate.

Lemma map_tabulate {A B : Type} (h : A -> B) (n : nat) (f : nat -> A) :
  map h (tabulate n f) = tabulate n (fun i => h (f i)).
Proof. unfold tabulate. apply map_map. Qed.

Lemma zip_with_tabulate {A B C : Type} (h : A -> B -> C) (n : nat)
      (f : nat -> A) (g : nat -> B) :
  zip_with h (tabulate n f) (tabulate n g) = tabulate n (fun i => h (f i) (g i)).
Proof. unfold tabulate. apply zip_with_map. Qed.

Section Entries.
Context {num : Type} `{Arith num}.

Lemma shape2_tabulate (b c : nat) (m : tensor2 num) :
  shape2 b c m ->
  m = tabulate b (fun i => tabulate c (fun j => entry2 m i j)).
Proof.
  intros [Hb Hrows]. subst b.
  rewrite <- (tabulate_nth m []) at 1.
  apply tabulate_ext. intros i Hi.
  assert (Hc : length (nth i m []) = c).
  { rewrite Forall_forall in Hrows. apply Hrows. now apply nth_In. }
  subst c. symmetry. apply tabulate_nth.
Qed.

Lemma shape3_tabulate (a b c : nat) (t : tensor3 num) :
  shape3 a b c t ->
  t = tabulate a (fun n => tabulate b (fun i => tabulate c (fun j =>
        entry3 t n i j))).
Proof.
  intros [Ha Hms]. subst a.
  rewrite <- (tabulate_nth t []) at 1.
  apply tabulate_ext. intros n Hn.
  assert (Hm : shape2 b c (nth n t [])).
  { rewrite Forall_forall in Hms. apply Hms. now apply nth_In. }
  now apply shape2_tabulate.
Qed.

Lemma shape4_tabulate (z a b c : nat) (t : tensor4 num) :
  shape4 z a b c t ->
  t = tabulate z (fun n => tabulate a (fun i => tabulate b (fun j =>
        tabulate c (fun d => entry4 t n i j d)))).
Proof.
  intros [Hz Hts]. subst z.
  rewrite <- (tabulate_nth t []) at 1.
  apply tabulate_ext. intros n Hn.
  assert (Hm : shape3 a b c (nth n t [])).
  { rewrite Forall_forall in Hts. apply Hts. now apply nth_In. }
  now apply shape3_tabulate.
Qed.

Lemma entry2_tabulate (b c : nat) (f : nat -> nat -> num) (i j : nat) :
  i < b -> j < c ->
  entry2 (tabulate b (fun i => tabulate c (f i))) i j = f i j.
Proof.
  intros Hi Hj. unfold entry2. now rewrite !nth_tabulate.
Qed.

Lemma entry3_tabulate (a b c : nat) (f : nat -> nat -> nat -> num) (n i j : nat) :
  n < a -> i < b -> j < c ->
  entry3 (tabulate a (fun n => tabulate b (fun i => tabulate c (f n i)))) n i j
  = f n i j.
Proof.
  intros Hn Hi Hj. unfold entry3. now rewrite !nth_tabulate.
Qed.

Lemma entry4_tabulate (z a b c : nat) (f : nat -> nat -> nat -> nat -> num)
      (n i j d : nat) :
  n < z -> i < a -> j < b -> d < c ->
  entry4 (tabulate z (fun n => tabulate a (fun i => tabulate b (fun j =>
            tabulate c (f n i j))))) n i j d
  = f n i j d.
Proof.
  intros Hn Hi Hj Hd. unfold entry4. now rewrite !nth_tabulate.
Qed.

Lemma tabulate_shape2 (b c : nat) (f : nat -> nat -> num) :
  shape2 b c (tabulate b (fun i => tabulate c (f i))).
Proof.
  split; [apply length_tabulate|].
  apply Forall_forall. intros v Hv.
  apply in_map_iff in Hv as [i [<- _]]. apply length_tabulate.
Qed.

Lemma tabulate_shape3 (a b c : nat) (f : nat -> nat -> nat -> num) :
  shape3 a b c (tabulate a (fun n => tabulate b (fun i => tabulate c (f n i)))).
Proof.
  split; [apply length_tabulate|].
  apply Forall_forall. intros m Hm.
  apply in_map_iff in Hm as [n [<- _]]. apply tabulate_shape2.
Qed.

End Entries.

(** ** Views: regrouping rows *)

Lemma firstn_length_app {A : Type} (l1 l2 : list A) :
  firstn (length l1) (l1 ++ l2) = l1.
Proof.
  induction l1 as [|x l1 IH]; simpl; [reflexivity | now rewrite IH].
Qed.

Lemma skipn_length_app {A : Type} (l1 l2 : list A) :
  skipn (length l1) (l1 ++ l2) = l2.
Proof.
  induction l1 as [|x l1 IH]; simpl; [reflexivity | exact IH].
Qed.

Lemma chunk_upto_concat {A : Type} (n : nat) (rows : list (list A)) :
  0 < n ->
  Forall (fun r => length r = n) rows ->
  forall k, length rows <= k -> chunk_upto k n (concat rows) = rows.
Proof.
  intros Hn Hrows.
  induction Hrows as [|r rows Hr Hrows IH]; intros k Hk.
  - destruct k; reflexivity.
  - destruct k as [|k]; [simpl in Hk; lia|].
    simpl in Hk. cbn [concat chunk_upto].
    destruct r as [|x r]; [simpl in Hr; lia|].
    cbn [app].
    change (x :: r ++ concat rows) with ((x :: r) ++ concat rows).
    subst n. rewrite firstn_length_app, skipn_length_app.
    f_equal. apply IH. lia.
Qed.

Lemma length_concat_rows {A : Type} (n : nat) (rows : list (list A)) :
  Forall (fun r => length r = n) rows ->
  length (concat rows) = length rows * n.
Proof.
  induction 1 as [|r rows Hr _ IH]; [reflexivity|].
  cbn [concat length]. rewrite length_app, IH, Hr. lia.
Qed.

Lemma chunk_concat {A : Type} (n : nat) (rows : list (list A)) :
  0 < n ->
  Forall (fun r => length r = n) rows ->
  chunk n (concat rows) = rows.
Proof.
  intros Hn Hrows. unfold chunk.
  apply chunk_upto_concat; try assumption.
  rewrite (length_concat_rows n) by assumption. nia.
Qed.

Lemma Forall_concat {A : Type} (P : A -> Prop) (ls : list (list A)) :
  Forall (Forall P) ls -> Forall P (concat ls).
Proof.
  induction 1 as [|l ls Hl _ IH]; [constructor|].
  cbn [concat]. apply Forall_app. now split.
Qed.

(** ** The steps of routing, entry by entry *)

Section RoutingSteps.
Context {num : Type} `{Scalar num}.
Variables B I O D : nat.

Lemma squash_shape (a c d : nat) (t : tensor3 num) :
  shape3 a c d t -> shape3 a c d (squash t).
Proof.
  rewrite squash_map. intros [Ha Hms]. split; [now rewrite length_map|].
  rewrite Forall_map. eapply Forall_impl; [|exact Hms].
  intros m [Hc Hvs]. split; [now rewrite length_map|].
  rewrite Forall_map. eapply Forall_impl; [|exact Hvs].
  intros v Hv. unfold squash_vec. now rewrite length_map.
Qed.

Lemma fold_sum_tabulate (g : nat -> nat -> nat -> num) (l : list nat) :
  fold_right (zip_with (zip_with add)) (zeros2 O D)
             (map (fun i => tabulate O (fun j => tabulate D (g i j))) l)
  = tabulate O (fun j => tabulate D (fun d => sum (map (fun i => g i j d) l))).
Proof.
  induction l as [|a l IH].
  - cbn [map fold_right]. unfold zeros2.
    rewrite repeat_tabulate. apply tabulate_ext. intros j _.
    apply repeat_tabulate.
  - cbn [map fold_right]. rewrite IH, zip_with_tabulate.
    apply tabulate_ext. intros j _. rewrite zip_with_tabulate. reflexivity.
Qed.

Lemma sum_dim1_tabulate (g : nat -> nat -> nat -> nat -> num) :
  sum_dim1 O D (tabulate B (fun n => tabulate I (fun i => tabulate O (fun j =>
                  tabulate D (g n i j)))))
  = tabulate B (fun n => tabulate O (fun j => tabulate D (fun d =>
      sum (tabulate I (fun i => g n i j d))))).
Proof.
  unfold sum_dim1. rewrite map_tabulate.
  apply tabulate_ext. intros n _.
  unfold tabulate at 1. apply fold_sum_tabulate.
Qed.

Lemma mul_c3_tabulate (c : nat -> nat -> nat -> num)
      (f : nat -> nat -> nat -> nat -> num) :
  mul_c3 (tabulate B (fun n => tabulate I (fun i => tabulate O (c n i))))
         (tabulate B (fun n => tabulate I (fun i => tabulate O (fun j =>
            tabulate D (f n i j)))))
  = tabulate B (fun n => tabulate I (fun i => tabulate O (fun j =>
      tabulate D (fun d => mul (c n i j) (f n i j d))))).
Proof.
  unfold mul_c3. rewrite zip_with_tabulate.
  apply tabulate_ext. intros n _. rewrite zip_with_tabulate.
  apply tabulate_ext. intros i _. rewrite zip_with_tabulate.
  apply tabulate_ext. intros j _. apply map_tabulate.
Qed.

(** [(c * u_hat).sum(dim=1)] is the weighted sum of the votes. *)
Lemma weighted_sum_c3 (c : tensor3 num) (u_hat : tensor4 num) :
  shape3 B I O c -> shape4 B I O D u_hat ->
  sum_dim1 O D (mul_c3 c u_hat) = weighted_sum B I O D (entry3 c) u_hat.
Proof.
  intros Hc Hu.
  transitivity
    (sum_dim1 O D
       (mul_c3 (tabulate B (fun n => tabulate I (fun i => tabulate O (entry3 c n i))))
               (tabulate B (fun n => tabulate I (fun i => tabulate O (fun j =>
                  tabulate D (entry4 u_hat n i j))))))).
  - now rewrite <- (shape3_tabulate _ _ _ c Hc),
                <- (shape4_tabulate _ _ _ _ u_hat Hu).
  - rewrite mul_c3_tabulate. apply sum_dim1_tabulate.
Qed.

Lemma mul_c2_expand (c : tensor2 num) (u_hat : tensor4 num) :
  mul_c2 c u_hat = mul_c3 (expand (length u_hat) c) u_hat.
Proof.
  unfold mul_c2, mul_c3, expand.
  induction u_hat as [|ub u IH]; [reflexivity|].
  cbn [map length repeat zip_with]. now rewrite IH.
Qed.

Lemma expand_shape (c : tensor2 num) :
  shape2 I O c -> shape3 B I O (expand B c).
Proof.
  intros Hc. unfold expand. split; [apply repeat_length|].
  apply Forall_forall. intros m Hm. apply repeat_spec in Hm. now subst.
Qed.

Lemma entry3_expand (c : tensor2 num) (n i j : nat) :
  n < B -> entry3 (expand B c) n i j = entry2 c i j.
Proof.
  intros Hn. unfold entry3, entry2, expand.
  rewrite repeat_tabulate, nth_tabulate by assumption. reflexivity.
Qed.

(** [(u_hat * v).sum(-1)] holds the agreements. *)
Lemma agreement_tensor (u_hat : tensor4 num) (v : tensor3 num) :
  shape4 B I O D u_hat -> shape3 B O D v ->
  sum_last (mul_u_v u_hat v)
  = tabulate B (fun n => tabulate I (fun i => tabulate O (fun j =>
      agreement D u_hat v n i j))).
Proof.
  intros Hu Hv.
  transitivity
    (sum_last
       (mul_u_v (tabulate B (fun n => tabulate I (fun i => tabulate O (fun j =>
                   tabulate D (entry4 u_hat n i j)))))
                (tabulate B (fun n => tabulate O (fun j =>
                   tabulate D (entry3 v n j)))))).
  - now rewrite <- (shape3_tabulate _ _ _ v Hv),
                <- (shape4_tabulate _ _ _ _ u_hat Hu).
  - unfold sum_last, mul_u_v. rewrite zip_with_tabulate, map_tabulate.
    apply tabulate_ext. intros n _. rewrite !map_tabulate.
    apply tabulate_ext. intros i _.
    rewrite zip_with_tabulate, map_tabulate.
    apply tabulate_ext. intros j _.
    rewrite zip_with_tabulate. reflexivity.
Qed.

Lemma add3_tabulate (f g : nat -> nat -> nat -> num) :
  add3 (tabulate B (fun n => tabulate I (fun i => tabulate O (f n i))))
       (tabulate B (fun n => tabulate I (fun i => tabulate O (g n i))))
  = tabulate B (fun n => tabulate I (fun i => tabulate O (fun j =>
      add (f n i j) (g n i j)))).
Proof.
  unfold add3. rewrite zip_with_tabulate.
  apply tabulate_ext. intros n _. rewrite zip_with_tabulate.
  apply tabulate_ext. intros i _. apply zip_with_tabulate.
Qed.

Lemma softmax_row_tabulate (g : nat -> nat -> num) (i : nat) :
  softmax_row (tabulate O (g i)) = tabulate O (coupling O g i).
Proof.
  unfold softmax_row, coupling. rewrite !map_tabulate. reflexivity.
Qed.

Lemma softmax_shape2 (m : tensor2 num) :
  shape2 I O m ->
  softmax m = tabulate I (fun i => tabulate O (coupling O (entry2 m) i)).
Proof.
  intros Hm. rewrite (shape2_tabulate _ _ m Hm) at 1.
  unfold softmax. rewrite map_tabulate.
  apply tabulate_ext. intros i _. apply softmax_row_tabulate.
Qed.

(** The two [view]s around the softmax of line 39 cancel. *)
Lemma view_softmax_view (t : tensor3 num) :
  0 < I -> 0 < O -> shape3 B I O t ->
  view_blocks I O (softmax (view_rows O t)) = map softmax t.
Proof.
  intros HI HO [HB Hms].
  assert (Hrows : Forall (fun r : list num => length r = O) (concat t)).
  { apply Forall_concat. eapply Forall_impl; [|exact Hms].
    now intros m [_ Hm]. }
  unfold view_rows, view_blocks.
  rewrite (chunk_concat O (concat t)) by assumption.
  unfold softmax at 1. rewrite concat_map.
  rewrite (chunk_concat O).
  - apply chunk_concat; [assumption|].
    rewrite Forall_map. eapply Forall_impl; [|exact Hms].
    intros m [Hm _]. unfold softmax. now rewrite length_map.
  - assumption.
  - apply Forall_concat. rewrite Forall_map.
    eapply Forall_impl; [|exact Hms].
    intros m [_ Hm]. rewrite Forall_map.
    eapply Forall_impl; [|exact Hm].
    intros r Hr. unfold softmax_row. now rewrite !length_map.
Qed.

Lemma coupling_tensor (t : tensor3 num) :
  0 < I -> 0 < O -> shape3 B I O t ->
  view_blocks I O (softmax (view_rows O t))
  = tabulate B (fun n => tabulate I (fun i => tabulate O (fun j =>
      coupling O (entry3 t n) i j))).
Proof.
  intros HI HO Ht. rewrite view_softmax_view by assumption.
  rewrite (shape3_tabulate _ _ _ t Ht) at 1.
  rewrite map_tabulate. apply tabulate_ext. intros n _.
  unfold softmax. rewrite map_tabulate.
  apply tabulate_ext. intros i _.
  apply (softmax_row_tabulate (entry3 t n)).
Qed.

End RoutingSteps.

(** ** forward against the index-wise algorithm *)

Section RoutingRefinement.
Context {num : Type} `{Scalar num}.
Variables B I O D : nat.
Hypothesis HB : 0 < B.
Hypothesis HI : 0 < I.
Hypothesis HO : 0 < O.

Lemma size4_shape4 (u_hat : tensor4 num) :
  shape4 B I O D u_hat -> size4 u_hat = (B, I, O, D).
Proof.
  intros [Hlen Hts]. unfold size4.
  destruct u_hat as [|ub u]; [simpl in Hlen; lia|].
  inversion Hts as [|? ? [Hub Hms] _]; subst.
  destruct ub as [|ui ub]; [simpl in HI; lia|].
  inversion Hms as [|? ? [Hui Hvs] _]; subst.
  destruct ui as [|uij ui]; [simpl in HO; lia|].
  inversion Hvs as [|? ? Huij _]; subst.
  reflexivity.
Qed.

Lemma coupling_ext (g g' : nat -> nat -> num) (i j : nat) :
  (forall k, k < O -> g i k = g' i k) -> j < O ->
  coupling O g i j = coupling O g' i j.
Proof.
  intros Hg Hj. unfold coupling.
  rewrite (Hg j Hj). f_equal. f_equal.
  apply tabulate_ext. intros k Hk. now rewrite Hg.
Qed.

Lemma weighted_sum_ext (c c' : nat -> nat -> nat -> num) (u_hat : tensor4 num) :
  (forall n i j, n < B -> i < I -> j < O -> c n i j = c' n i j) ->
  weighted_sum B I O D c u_hat = weighted_sum B I O D c' u_hat.
Proof.
  intros Hc. unfold weighted_sum.
  apply tabulate_ext. intros n Hn.
  apply tabulate_ext. intros j Hj.
  apply tabulate_ext. intros d _. f_equal.
  apply tabulate_ext. intros i Hi. now rewrite Hc.
Qed.

Lemma capsules_shape (c : nat -> nat -> nat -> num) (u_hat : tensor4 num) :
  shape3 B O D (capsules B I O D c u_hat).
Proof.
  unfold capsules, weighted_sum. apply squash_shape.
  apply (tabulate_shape3 B O D
           (fun n j d => sum (tabulate I (fun i =>
              mul (c n i j) (entry4 u_hat n i j d))))).
Qed.

Lemma refine_ext (u_hat : tensor4 num) (k : nat) :
  forall (L1 L2 : nat -> nat -> nat -> num) (v : tensor3 num),
    (forall n i j, n < B -> i < I -> j < O -> L1 n i j = L2 n i j) ->
    refine B I O D k u_hat L1 v = refine B I O D k u_hat L2 v.
Proof.
  induction k as [|k IH]; intros L1 L2 v HL; [reflexivity|].
  cbn [refine].
  assert (HL' : forall n i j, n < B -> i < I -> j < O ->
                  add (L1 n i j) (agreement D u_hat v n i j)
                  = add (L2 n i j) (agreement D u_hat v n i j)).
  { intros n i j Hn Hi Hj. now rewrite HL. }
  rewrite (IH _ _ _ HL'). f_equal.
  unfold capsules. f_equal.
  apply weighted_sum_ext. intros n i j Hn Hi Hj.
  apply coupling_ext; [|assumption].
  intros k' Hk'. now apply HL'.
Qed.

Lemma refine_shape (u_hat : tensor4 num) (k : nat) :
  forall (L : nat -> nat -> nat -> num) (v : tensor3 num),
    shape3 B O D v -> shape3 B O D (refine B I O D k u_hat L v).
Proof.
  induction k as [|k IH]; intros L v Hv; [exact Hv|].
  cbn [refine]. apply IH. apply capsules_shape.
Qed.

(** One pass of the loop, in terms of the entries of [b_batch]. *)
Lemma route_round_entries (u_hat : tensor4 num) (b_batch v : tensor3 num) :
  shape4 B I O D u_hat -> shape3 B I O b_batch -> shape3 B O D v ->
  let L := fun n i j =>
             add (entry3 b_batch n i j) (agreement D u_hat v n i j) in
  let rd := route_round u_hat b_batch v in
  rd_b_batch rd = tabulate B (fun n => tabulate I (fun i => tabulate O (L n i)))
  /\ rd_c rd = tabulate B (fun n => tabulate I (fun i => tabulate O (fun j =>
                 coupling O (L n) i j)))
  /\ rd_v rd = capsules B I O D (fun n => coupling O (L n)) u_hat.
Proof.
  intros Hu Hb Hv L rd.
  assert (Hbb : rd_b_batch rd
                = tabulate B (fun n => tabulate I (fun i => tabulate O (L n i)))).
  { subst rd. unfold route_round. rewrite (size4_shape4 _ Hu).
    cbn [rd_b_batch].
    rewrite (agreement_tensor B I O D _ _ Hu Hv).
    rewrite (shape3_tabulate _ _ _ b_batch Hb) at 1.
    apply add3_tabulate. }
  assert (Hc : rd_c rd
               = tabulate B (fun n => tabulate I (fun i => tabulate O (fun j =>
                   coupling O (L n) i j)))).
  { assert (Hc0 : rd_c rd = view_blocks I O (softmax (view_rows O (rd_b_batch rd)))).
    { subst rd. unfold route_round. now rewrite (size4_shape4 _ Hu). }
    rewrite Hc0, Hbb.
    rewrite (coupling_tensor B I O) by (try assumption; apply tabulate_shape3).
    apply tabulate_ext. intros n Hn.
    apply tabulate_ext. intros i Hi.
    apply tabulate_ext. intros j Hj.
    apply coupling_ext; [|assumption].
    intros k Hk. now apply entry3_tabulate. }
  split; [exact Hbb|]. split; [exact Hc|].
  assert (Hv0 : rd_v rd = squash (sum_dim1 O D (mul_c3 (rd_c rd) u_hat))).
  { subst rd. unfold route_round. now rewrite (size4_shape4 _ Hu). }
  rewrite Hv0. unfold capsules. f_equal.
  rewrite (weighted_sum_c3 B I O D) by
      (try assumption; rewrite Hc; apply tabulate_shape3).
  apply weighted_sum_ext. intros n i j Hn Hi Hj.
  rewrite Hc.
  now apply (entry3_tabulate B I O (fun n i j => coupling O (L n) i j)).
Qed.

Lemma route_loop_refine (u_hat : tensor4 num) (rs : list nat) :
  shape4 B I O D u_hat ->
  forall b_batch v : tensor3 num,
    shape3 B I O b_batch -> shape3 B O D v ->
    route_loop rs u_hat b_batch v
    = refine B I O D (length rs) u_hat (entry3 b_batch) v.
Proof.
  intros Hu. induction rs as [|r rs IH]; intros b_batch v Hb Hv; [reflexivity|].
  cbn [route_loop length refine].
  destruct (route_round_entries u_hat b_batch v Hu Hb Hv) as [Hbb [_ Hrv]].
  cbv zeta in Hbb, Hrv.
  rewrite IH.
  - rewrite Hrv. apply refine_ext. intros n i j Hn Hi Hj.
    rewrite Hbb.
    now apply (entry3_tabulate B I O (fun n i j =>
                 add (entry3 b_batch n i j) (agreement D u_hat v n i j))).
  - rewrite Hbb. apply tabulate_shape3.
  - rewrite Hrv. apply capsules_shape.
Qed.

Lemma initial_v_capsules (self : DynamicRouting) (u_hat : tensor4 num) :
  shape2 I O (b self) -> shape4 B I O D u_hat ->
  initial_v self u_hat
  = capsules B I O D (fun _ => coupling O (entry2 (b self))) u_hat.
Proof.
  intros Hb Hu. unfold initial_v, initial_c.
  rewrite (size4_shape4 _ Hu). unfold capsules. f_equal.
  rewrite mul_c2_expand.
  replace (length u_hat) with B by (symmetry; apply Hu).
  assert (Hs : shape2 I O (softmax (b self))).
  { rewrite (softmax_shape2 I O _ Hb). apply tabulate_shape2. }
  rewrite (weighted_sum_c3 B I O D) by
      (try assumption; now apply expand_shape).
  apply weighted_sum_ext. intros n i j Hn Hi Hj.
  rewrite entry3_expand by assumption.
  rewrite (softmax_shape2 I O _ Hb). now apply entry2_tabulate.
Qed.

Lemma forward_refine (self : DynamicRouting) (u_hat : tensor4 num) :
  shape2 I O (b self) -> shape4 B I O D u_hat ->
  forward self u_hat
  = if (0 <? n_iterations self)%Z
    then routing_spec B I O D (n_iterations self) (b self) u_hat
    else capsules B I O D (fun _ => coupling O (entry2 (b self))) u_hat.
Proof.
  intros Hb Hu. unfold forward. rewrite (size4_shape4 _ Hu).
  rewrite (initial_v_capsules self u_hat Hb Hu).
  destruct (0 <? n_iterations self)%Z; [|reflexivity].
  rewrite route_loop_refine.
  - unfold routing_spec, range. rewrite length_seq.
    apply refine_ext. intros n i j Hn _ _. now apply entry3_expand.
  - assumption.
  - now apply expand_shape.
  - apply capsules_shape.
Qed.

End RoutingRefinement.

(** C1: for votes of shape [batch, input_caps, output_caps, output_dim]
    and [n_iterations > 0], [forward] returns what the algorithm of the
    description computes: the coupling is the softmax of the logits along
    the output-capsule axis, [s_j] is the sum over the input capsules of
    [c_ij * u_hat_ij], [v] is the squash of [s], and each of the
    [n_iterations] rounds adds the agreements to the per-batch logits and
    recomputes [c], [s] and [v]; the result has shape
    [batch, output_caps, output_dim]. *)
Theorem forward_is_routing_by_agreement
        {num : Type} `{Scalar num} (B I O D : nat) (n : Z)
        (b0 : tensor2 num) (u_hat : tensor4 num) :
  0 < B -> 0 < I -> 0 < O ->
  shape2 I O b0 -> shape4 B I O D u_hat -> (0 < n)%Z ->
  forward {| n_iterations := n; b := b0 |} u_hat = routing_spec B I O D n b0 u_hat
  /\ shape3 B O D (forward {| n_iterations := n; b := b0 |} u_hat).
Proof.
  intros HB HI HO Hb Hu Hn.
  assert (E : forward {| n_iterations := n; b := b0 |} u_hat
              = routing_spec B I O D n b0 u_hat).
  { rewrite (forward_refine B I O D HB HI HO) by assumption.
    cbn [n_iterations b].
    apply Z.ltb_lt in Hn. now rewrite Hn. }
  split; [exact E|]. rewrite E. unfold routing_spec.
  apply refine_shape. apply capsules_shape.
Qed.

Lemma forward_is_routing_by_agreement_witness :
  forward {| n_iterations := 2; b := [[Fin 0; Fin 1]; [Fin 2; Fin 0]] |}
          [[[[Fin 1]; [Fin 2]]; [[Fin 3]; [Fin 4]]]]
  = routing_spec 1 2 2 1 2 [[Fin 0; Fin 1]; [Fin 2; Fin 0]]
                 [[[[Fin 1]; [Fin 2]]; [[Fin 3]; [Fin 4]]]]
  /\ shape3 1 2 1
       (forward {| n_iterations := 2; b := [[Fin 0; Fin 1]; [Fin 2; Fin 0]] |}
                [[[[Fin 1]; [Fin 2]]; [[Fin 3]; [Fin 4]]]]).
Proof.
  apply (forward_is_routing_by_agreement 1 2 2 1 2
           [[Fin 0; Fin 1]; [Fin 2; Fin 0]]
           [[[[Fin 1]; [Fin 2]]; [[Fin 3]; [Fin 4]]]]).
  - lia.
  - lia.
  - lia.
  - split; [reflexivity | repeat constructor].
  - split; [reflexivity | repeat constructor].
  - lia.
Defined.

(** ** The number of rounds *)

Section Rounds.
Context {num : Type} `{Scalar num}.

Lemma last_cons {A : Type} (l : list A) (a d : A) : last (a :: l) d = last l a.
Proof.
  revert a d. induction l as [|x l IH]; intros a d; [reflexivity|].
  change (last (a :: x :: l) d) with (last (x :: l) d).
  now rewrite (IH x d), (IH x a).
Qed.

Lemma length_route_trace (u_hat : tensor4 num) (rs : list nat) :
  forall b_batch v : tensor3 num,
    length (route_trace rs u_hat b_batch v) = length rs.
Proof.
  induction rs as [|r rs IH]; intros b_batch v; [reflexivity|].
  cbn [route_trace length]. now rewrite IH.
Qed.

Lemma route_loop_trace (u_hat : tensor4 num) (rs : list nat) :
  forall b_batch v : tensor3 num,
    route_loop rs u_hat b_batch v
    = last (map rd_v (route_trace rs u_hat b_batch v)) v.
Proof.
  induction rs as [|r rs IH]; intros b_batch v; [reflexivity|].
  cbn [route_loop route_trace map]. rewrite last_cons. apply IH.
Qed.

End Rounds.

Section RoundsRefinement.
Context {num : Type} `{Scalar num}.
Variables B I O D : nat.
Hypothesis HB : 0 < B.
Hypothesis HI : 0 < I.
Hypothesis HO : 0 < O.

Lemma refine_step (k : nat) (u_hat : tensor4 num)
      (L : nat -> nat -> nat -> num) (v : tensor3 num) :
  refine B I O D (S k) u_hat L v
  = refine B I O D k u_hat
           (fun n i j => add (L n i j) (agreement D u_hat v n i j))
           (capsules B I O D
              (fun n => coupling O (fun i j =>
                          add (L n i j) (agreement D u_hat v n i j)))
              u_hat).
Proof. reflexivity. Qed.

(** The capsules of pass [k] of the loop are those of [k + 1] rounds of the
    index-wise algorithm. *)
Lemma route_trace_refine (u_hat : tensor4 num) (rs : list nat) :
  shape4 B I O D u_hat ->
  forall (b_batch v : tensor3 num) (k : nat),
    shape3 B I O b_batch -> shape3 B O D v -> k < length rs ->
    nth k (map rd_v (route_trace rs u_hat b_batch v)) []
    = refine B I O D (S k) u_hat (entry3 b_batch) v.
Proof.
  intros Hu. induction rs as [|r rs IH]; intros b_batch v k Hb Hv Hk.
  - simpl in Hk. lia.
  - cbn [route_trace map].
    destruct (route_round_entries B I O D HB HI HO u_hat b_batch v Hu Hb Hv)
      as [Hbb [_ Hrv]].
    cbv zeta in Hbb, Hrv.
    destruct k as [|k].
    + cbn [nth]. rewrite refine_step. cbn [refine]. exact Hrv.
    + cbn [nth]. cbn [length] in Hk.
      rewrite IH.
      * rewrite (refine_step (S k)). rewrite Hrv.
        apply refine_ext. intros n i j Hn Hi Hj.
        rewrite Hbb.
        now apply (entry3_tabulate B I O (fun n i j =>
                     add (entry3 b_batch n i j) (agreement D u_hat v n i j))).
      * rewrite Hbb. apply tabulate_shape3.
      * rewrite Hrv. apply capsules_shape.
      * lia.
Qed.

Lemma forward_trace_length (self : DynamicRouting) (u_hat : tensor4 num) :
  length (forward_trace self u_hat) = Z.to_nat (n_iterations self).
Proof.
  clear HB HI HO. unfold forward_trace.
  destruct (size4 u_hat) as [[[bs ic] oc] od].
  destruct (0 <? n_iterations self)%Z eqn:Hn.
  - rewrite length_route_trace. unfold range. apply length_seq.
  - apply Z.ltb_ge in Hn. cbn [length]. lia.
Qed.

Lemma forward_trace_refine (self : DynamicRouting) (u_hat : tensor4 num)
      (k : nat) :
  shape2 I O (b self) -> shape4 B I O D u_hat ->
  k < Z.to_nat (n_iterations self) ->
  nth k (map rd_v (forward_trace self u_hat)) []
  = refine B I O D (S k) u_hat (fun _ => entry2 (b self))
           (capsules B I O D (fun _ => coupling O (entry2 (b self))) u_hat).
Proof.
  intros Hb Hu Hk. unfold forward_trace.
  rewrite (size4_shape4 B I O D HB HI HO _ Hu).
  destruct (0 <? n_iterations self)%Z eqn:Hn.
  - rewrite route_trace_refine.
    + rewrite (initial_v_capsules B I O D HB HI HO self u_hat Hb Hu).
      apply refine_ext. intros n i j Hn' _ _. now apply entry3_expand.
    + assumption.
    + now apply expand_shape.
    + rewrite (initial_v_capsules B I O D HB HI HO self u_hat Hb Hu).
      apply capsules_shape.
    + unfold range. now rewrite length_seq.
  - apply Z.ltb_ge in Hn. lia.
Qed.

Lemma forward_refine_count (self : DynamicRouting) (u_hat : tensor4 num) :
  shape2 I O (b self) -> shape4 B I O D u_hat ->
  forward self u_hat
  = refine B I O D (Z.to_nat (n_iterations self)) u_hat
           (fun _ => entry2 (b self))
           (capsules B I O D (fun _ => coupling O (entry2 (b self))) u_hat).
Proof.
  intros Hb Hu. rewrite (forward_refine B I O D HB HI HO) by assumption.
  destruct (0 <? n_iterations self)%Z eqn:Hn; [reflexivity|].
  apply Z.ltb_ge in Hn.
  replace (Z.to_nat (n_iterations self)) with 0 by lia. reflexivity.
Qed.

End RoundsRefinement.

(** C6: on votes of shape [batch, input_caps, output_caps, output_dim] and
    logits of shape [input_caps, output_caps], the loop makes exactly
    [n_iterations] passes, whatever the values of the votes and of the
    logits are (none for [n_iterations <= 0]); the capsules pass [k]
    leaves are those of [k + 1] rounds of refinement of the index-wise
    algorithm, each round adding the agreements to the logits and
    recomputing coupling, weighted sum and squash; [forward] returns the
    capsules after [n_iterations] rounds; and with [n_iterations = 0] it
    returns the squash of the sum over the input capsules of the votes
    weighted by the softmax of [b] along the output capsules. *)
Theorem forward_rounds {num : Type} `{Scalar num} (B I O D : nat)
        (self : DynamicRouting) (u_hat : tensor4 num) :
  0 < B -> 0 < I -> 0 < O ->
  shape2 I O (b self) -> shape4 B I O D u_hat ->
  let v0 := squash (weighted_sum B I O D
                      (fun _ => coupling O (entry2 (b self))) u_hat) in
  let rounds := fun k => refine B I O D k u_hat (fun _ => entry2 (b self)) v0 in
  length (forward_trace self u_hat) = Z.to_nat (n_iterations self)
  /\ (forall k, k < Z.to_nat (n_iterations self) ->
        nth k (map rd_v (forward_trace self u_hat)) [] = rounds (S k))
  /\ forward self u_hat = rounds (Z.to_nat (n_iterations self))
  /\ forward {| n_iterations := 0; b := b self |} u_hat = v0.
Proof.
  intros HB HI HO Hb Hu v0 rounds. split; [|split; [|split]].
  - apply forward_trace_length.
  - intros k Hk. now apply (forward_trace_refine B I O D HB HI HO).
  - now apply (forward_refine_count B I O D HB HI HO).
  - now rewrite (forward_refine_count B I O D HB HI HO) by assumption.
Qed.

Lemma forward_rounds_witness :
  let self := {| n_iterations := 2; b := [[Fin 0; Fin 1]; [Fin 2; Fin 0]] |} in
  let u_hat := [[[[Fin 1]; [Fin 2]]; [[Fin 3]; [Fin 4]]]] in
  let v0 := squash (weighted_sum 1 2 2 1
                      (fun _ => coupling 2 (entry2 (b self))) u_hat) in
  let rounds := fun k => refine 1 2 2 1 k u_hat (fun _ => entry2 (b self)) v0 in
  length (forward_trace self u_hat) = 2
  /\ (forall k, k < 2 ->
        nth k (map rd_v (forward_trace self u_hat)) [] = rounds (S k))
  /\ forward self u_hat = rounds 2
  /\ forward {| n_iterations := 0; b := b self |} u_hat = v0.
Proof.
  intros self u_hat.
  apply (forward_rounds 1 2 2 1 self u_hat).
  - lia.
  - lia.
  - lia.
  - split; [reflexivity | repeat constructor].
  - split; [reflexivity | repeat constructor].
Defined.

(** ** Coupling coefficients *)

Section RoutingInvariant.
Context {num : Type} `{Scalar num}.
Variables B I O D : nat.
Hypothesis HB : 0 < B.
Hypothesis HI : 0 < I.
Hypothesis HO : 0 < O.

Lemma route_round_softmax (u_hat : tensor4 num) (b_batch v : tensor3 num) :
  shape4 B I O D u_hat -> shape3 B I O b_batch -> shape3 B O D v ->
  let rd := route_round u_hat b_batch v in
  shape3 B I O (rd_b_batch rd)
  /\ shape3 B O D (rd_v rd)
  /\ rd_c rd = map softmax (rd_b_batch rd).
Proof.
  intros Hu Hb Hv rd.
  destruct (route_round_entries B I O D HB HI HO u_hat b_batch v Hu Hb Hv)
    as [Hbb [_ Hrv]].
  cbv zeta in Hbb, Hrv. fold rd in Hbb, Hrv.
  assert (Hshape : shape3 B I O (rd_b_batch rd)).
  { rewrite Hbb. apply tabulate_shape3. }
  split; [exact Hshape|]. split.
  - rewrite Hrv. apply capsules_shape.
  - rewrite <- (view_softmax_view B I O) by assumption.
    subst rd. unfold route_round.
    rewrite (size4_shape4 B I O D HB HI HO _ Hu). reflexivity.
Qed.

Lemma route_trace_softmax (u_hat : tensor4 num) (rs : list nat) :
  shape4 B I O D u_hat ->
  forall b_batch v : tensor3 num,
    shape3 B I O b_batch -> shape3 B O D v ->
    Forall (fun rd => shape3 B I O (rd_b_batch rd)
                      /\ rd_c rd = map softmax (rd_b_batch rd))
           (route_trace rs u_hat b_batch v).
Proof.
  intros Hu. induction rs as [|r rs IH]; intros b_batch v Hb Hv.
  - constructor.
  - cbn [route_trace].
    destruct (route_round_softmax u_hat b_batch v Hu Hb Hv) as [Hs [Hsv Hc]].
    cbv zeta in Hs, Hsv, Hc.
    constructor; [now split|]. now apply IH.
Qed.

Lemma forward_trace_softmax (self : DynamicRouting) (u_hat : tensor4 num) :
  shape2 I O (b self) -> shape4 B I O D u_hat ->
  Forall (fun rd => shape3 B I O (rd_b_batch rd)
                    /\ rd_c rd = map softmax (rd_b_batch rd))
         (forward_trace self u_hat).
Proof.
  intros Hb Hu. unfold forward_trace.
  rewrite (size4_shape4 B I O D HB HI HO _ Hu).
  destruct (0 <? n_iterations self)%Z; [|constructor].
  apply route_trace_softmax; try assumption.
  - now apply expand_shape.
  - rewrite (initial_v_capsules B I O D HB HI HO) by assumption.
    apply capsules_shape.
Qed.

End RoutingInvariant.

Section SoftmaxReal.
Local Open Scope R_scope.

Lemma finite_lift (r : list xreal) :
  Forall finite r -> exists l : list R, r = lift1 l.
Proof.
  induction 1 as [|x r Hx _ [l ->]].
  - now exists [].
  - destruct x as [a|]; [|contradiction]. now exists (a :: l).
Qed.

Lemma sum_exp_lift (l : list R) :
  sum (map exp (lift1 l)) = Fin (Rsum (map Rtrigo_def.exp l)).
Proof.
  induction l as [|x l IH]; [reflexivity|].
  unfold lift1, sum, Rsum in *. cbn [map fold_right].
  rewrite IH. reflexivity.
Qed.

Lemma Rsum_exp_pos (l : list R) :
  l <> [] -> 0 < Rsum (map Rtrigo_def.exp l).
Proof.
  intros Hl.
  assert (Hnn : forall k : list R, 0 <= Rsum (map Rtrigo_def.exp k)).
  { induction k as [|y k IH]; unfold Rsum in *; cbn [map fold_right]; [lra|].
    pose proof (exp_pos y). lra. }
  destruct l as [|x l]; [contradiction|].
  unfold Rsum. cbn [map fold_right].
  pose proof (exp_pos x). specialize (Hnn l). unfold Rsum in Hnn. lra.
Qed.

Lemma Rsum_div (f : R -> R) (z : R) (l : list R) :
  Rsum (map (fun x => f x / z) l) = Rsum (map f l) / z.
Proof.
  induction l as [|x l IH]; unfold Rsum in *; cbn [map fold_right].
  - unfold Rdiv. ring.
  - rewrite IH. unfold Rdiv. ring.
Qed.

Lemma softmax_row_lift (l : list R) :
  l <> [] ->
  softmax_row (lift1 l)
  = lift1 (map (fun x => Rtrigo_def.exp x / Rsum (map Rtrigo_def.exp l)) l).
Proof.
  intros Hl. pose proof (Rsum_exp_pos l Hl) as Hpos.
  unfold softmax_row. rewrite sum_exp_lift.
  unfold lift1. rewrite !map_map.
  apply map_ext. intros x.
  cbn [exp div xreal_scalar xreal_arith xlift1].
  apply xdiv_fin. lra.
Qed.

(** The softmax of a non-empty row of finite logits is a distribution. *)
Lemma softmax_row_distribution (r : list xreal) :
  r <> [] -> Forall finite r -> distribution (softmax_row r).
Proof.
  intros Hr Hfin. destruct (finite_lift r Hfin) as [l ->].
  assert (Hl : l <> []) by (intros ->; now apply Hr).
  pose proof (Rsum_exp_pos l Hl) as Hpos.
  exists (map (fun x => Rtrigo_def.exp x / Rsum (map Rtrigo_def.exp l)) l).
  split; [now apply softmax_row_lift|]. split.
  - rewrite Forall_map. apply Forall_forall. intros x _.
    apply Rlt_le, Rdiv_lt_0_compat; [apply exp_pos | assumption].
  - rewrite (Rsum_div Rtrigo_def.exp). field. lra.
Qed.

End SoftmaxReal.

(** C2: the coupling of a pass of the loop is not always a distribution.
    With the finite logits [b = [[0], [0]]] (two input capsules, one output
    capsule) the initial coupling is [1] for each input capsule; the votes
    [1] and [-1] of the two input capsules then cancel, the weighted sum
    is the zero vector, its squash is not a number, and the logits and the
    coupling coefficients of the first pass are not numbers: they are not
    non-negative and do not sum to one. *)
Theorem coupling_nan_after_cancelling_votes :
  let self := {| n_iterations := 1; b := [[Fin 0]; [Fin 0]] |} in
  let u_hat := [[[[Fin 1]]; [[Fin (-1)]]]] in
  initial_c self = [[Fin 1]; [Fin 1]]
  /\ initial_v self u_hat = [[[NaN]]]
  /\ map rd_b_batch (forward_trace self u_hat) = [[[[NaN]; [NaN]]]]
  /\ map rd_c (forward_trace self u_hat) = [[[[NaN]; [NaN]]]]
  /\ ~ distribution [NaN].
Proof.
  intros self u_hat.
  assert (Hc : initial_c self = [[Fin 1]; [Fin 1]]).
  { unfold initial_c, softmax, softmax_row, sum. subst self.
    cbn [b map fold_right exp add div zero xreal_scalar xreal_arith
         xlift1 xlift2].
    pose proof (exp_pos 0) as Hpos.
    rewrite xdiv_fin by lra.
    replace (Rtrigo_def.exp 0 / (Rtrigo_def.exp 0 + 0))%R with 1%R
      by (field; lra).
    reflexivity. }
  assert (Hv : initial_v self u_hat = [[[NaN]]]).
  { unfold initial_v. rewrite Hc. subst u_hat.
    transitivity (squash [[[Fin 0]]]); [|exact (squash_zeros 0)].
    cbn [size4 length hd sum_dim1 mul_c2 map zip_with fold_right zeros2 repeat
         mul add zero xreal_arith xlift2].
    replace (1 * 1 + (1 * -1 + 0))%R with 0%R by ring.
    reflexivity. }
  split; [exact Hc|]. split; [exact Hv|].
  unfold forward_trace.
  change (size4 u_hat) with (1, 2, 1, 1).
  cbn [n_iterations self Z.ltb Z.compare range Z.to_nat
       Pos.to_nat Pos.iter_op seq route_trace map].
  rewrite Hv.
  split; [reflexivity|]. split; [reflexivity|].
  intros [l [Hl _]]. destruct l as [|x l]; discriminate Hl.
Qed.

(** The same happens with votes that are all zero: the weighted sum is the
    zero vector, its squash is not a number, and so are the logits and the
    coupling of the first pass. *)
Remark zero_votes_logits_nan :
  map rd_b_batch
      (forward_trace {| n_iterations := 1; b := [[Fin 0]] |} [[[[Fin 0]]]])
  = [[[[NaN]]]]
  /\ map rd_c
        (forward_trace {| n_iterations := 1; b := [[Fin 0]] |} [[[[Fin 0]]]])
     = [[[[NaN]]]].
Proof.
  assert (Hc : softmax [[Fin 0]]
               = [[Fin (Rtrigo_def.exp 0 / (Rtrigo_def.exp 0 + 0))]]).
  { unfold softmax, softmax_row, sum.
    cbn [map fold_right exp add div zero xreal_scalar xreal_arith xlift1 xlift2].
    rewrite xdiv_fin; [reflexivity|].
    pose proof (exp_pos 0) as Hpos. lra. }
  assert (Hv : squash (sum_dim1 1 1 (mul_c2 (softmax [[Fin 0]]) [[[[Fin 0]]]]))
               = [[[NaN]]]).
  { rewrite Hc.
    transitivity (squash [[[Fin 0]]]); [|exact (squash_zeros 0)].
    cbn [sum_dim1 mul_c2 map zip_with fold_right zeros2 repeat
         mul add zero xreal_arith xlift2].
    replace (Rtrigo_def.exp 0 / (Rtrigo_def.exp 0 + 0) * 0 + 0)%R with 0%R by ring.
    reflexivity. }
  unfold forward_trace, initial_v, initial_c.
  cbn [size4 length hd n_iterations b Z.ltb Z.compare range Z.to_nat
       Pos.to_nat Pos.iter_op seq route_trace map].
  rewrite Hv. split; reflexivity.
Qed.

(** ** forward on the store *)

Section StoreProofs.
Context {num : Type} `{Scalar num}.

Lemma nth_error_extend (l : loc) (st ext : store num) (x : stored num) :
  nth_error st l = Some x -> nth_error (st ++ ext) l = Some x.
Proof.
  intros Hx. rewrite nth_error_app1; [assumption|].
  apply nth_error_Some. congruence.
Qed.

Lemma read2_extend (l : loc) (st ext : store num) (m : tensor2 num) :
  read2 l st = Some m -> read2 l (st ++ ext) = Some m.
Proof.
  unfold read2. intros Hr.
  destruct (nth_error st l) as [x|] eqn:Hx; [|discriminate].
  now rewrite (nth_error_extend l st ext x Hx).
Qed.

Lemma read3_alloc (t : tensor3 num) (st : store num) :
  read3 (Own (length st)) (st ++ [Stored3 t]) = Some t.
Proof.
  unfold read3. rewrite nth_error_app2 by lia.
  now rewrite Nat.sub_diag.
Qed.

(** The loop on the store computes what [route_loop] computes and only
    adds tensors to the store. *)
Lemma route_loop_st_spec (u_hat : tensor4 num) (rs : list nat) :
  forall (b_batch : tensor_ref) (old v : tensor3 num) (st : store num),
    read3 b_batch st = Some old ->
    exists ext : store num,
      route_loop_st rs u_hat b_batch v st
      = Some (route_loop rs u_hat old v, st ++ ext).
Proof.
  induction rs as [|r rs IH]; intros b_batch old v st Hread.
  - exists []. cbn [route_loop_st route_loop]. now rewrite app_nil_r.
  - cbn [route_loop_st route_loop]. rewrite Hread. unfold alloc.
    destruct (IH (Own (length st))
                 (rd_b_batch (route_round u_hat old v))
                 (rd_v (route_round u_hat old v))
                 (st ++ [Stored3 (rd_b_batch (route_round u_hat old v))])
                 (read3_alloc _ st)) as [ext Hext].
    exists (Stored3 (rd_b_batch (route_round u_hat old v)) :: ext).
    rewrite Hext. now rewrite <- app_assoc.
Qed.

(** [forward] on the store returns what the function [forward] returns
    for the value of [self.b], and only adds tensors to the store. *)
Lemma forward_st_spec (self : DynamicRoutingObj) (u_hat : tensor4 num)
      (st : store num) (b0 : tensor2 num) :
  read2 (obj_b self) st = Some b0 ->
  exists ext : store num,
    forward_st self u_hat st
    = Some (forward {| n_iterations := obj_n_iterations self; b := b0 |} u_hat,
            st ++ ext).
Proof.
  intros Hb. unfold forward_st, forward. rewrite Hb.
  destruct (size4 u_hat) as [[[bs ic] oc] od].
  cbn [n_iterations b].
  destruct (0 <? obj_n_iterations self)%Z.
  - apply route_loop_st_spec. unfold read3. now rewrite Hb.
  - exists []. now rewrite app_nil_r.
Qed.

End StoreProofs.

(** C10: [forward] does not modify the parameter [b].  The agreements
    are added into tensors of their own ([b_batch] starts as a view on [b]
    and is rebound by an out-of-place addition), so when [self.b] holds
    the logits [b0], the call returns and [self.b] still holds [b0]
    afterwards, as does every location of the store. *)
Theorem forward_keeps_b {num : Type} `{Scalar num}
        (self : DynamicRoutingObj) (u_hat : tensor4 num)
        (st : store num) (b0 : tensor2 num) :
  read2 (obj_b self) st = Some b0 ->
  exists (v : tensor3 num) (st' : store num),
    forward_st self u_hat st = Some (v, st')
    /\ read2 (obj_b self) st' = Some b0
    /\ (forall l x, nth_error st l = Some x -> nth_error st' l = Some x).
Proof.
  intros Hb.
  destruct (forward_st_spec self u_hat st b0 Hb) as [ext Hrun].
  eexists. exists (st ++ ext). split; [exact Hrun|]. split.
  - now apply read2_extend.
  - intros l x Hx. now apply nth_error_extend.
Qed.

Lemma forward_keeps_b_witness :
  exists (v : tensor3 xreal) (st' : store xreal),
    forward_st {| obj_n_iterations := 2; obj_b := 0 |}
               [[[[Fin 1]; [Fin 2]]]] [Stored2 [[Fin 0; Fin 0]]]
    = Some (v, st')
    /\ read2 0 st' = Some [[Fin 0; Fin 0]]
    /\ (forall l x, nth_error [Stored2 [[Fin 0; Fin 0]]] l = Some x ->
                    nth_error st' l = Some x).
Proof.
  apply (forward_keeps_b {| obj_n_iterations := 2; obj_b := 0 |}
                         [[[[Fin 1]; [Fin 2]]]] [Stored2 [[Fin 0; Fin 0]]]
                         [[Fin 0; Fin 0]]).
  reflexivity.
Defined.

(** ** MarginLoss *)

Section LossReal.
Local Open Scope R_scope.
Variables mp mm lam : R.

Let self : MarginLoss :=
  {| m_plus := Fin mp; m_minus := Fin mm; lambda_ := Fin lam |}.

Lemma entry_loss_target (len : R) :
  entry_loss self 1 (Fin len) = Fin (penalty mp mm lam true len).
Proof.
  unfold entry_loss, penalty, pow2, self.
  cbn [m_plus m_minus lambda_ add sub mul one relu of_int
       xreal_arith xreal_scalar xlift1 xlift2].
  f_equal. ring.
Qed.

Lemma entry_loss_other (len : R) :
  entry_loss self 0 (Fin len) = Fin (penalty mp mm lam false len).
Proof.
  unfold entry_loss, penalty, pow2, self.
  cbn [m_plus m_minus lambda_ add sub mul one relu of_int
       xreal_arith xreal_scalar xlift1 xlift2].
  f_equal. ring.
Qed.

(** Past the target class every entry of the mask is zero. *)
Lemma losses_row_other (row : list R) (j : nat) (k : Z) :
  (k < Z.of_nat j)%Z ->
  zip_with (entry_loss self) (map (fun _ => 0%Z) row) (lift1 row)
  = lift1 (penalties_from mp mm lam j k row).
Proof.
  revert j. induction row as [|len row IH]; intros j Hk; [reflexivity|].
  cbn [map zip_with lift1 penalties_from].
  rewrite entry_loss_other.
  replace (Z.of_nat j =? k)%Z with false by (symmetry; apply Z.eqb_neq; lia).
  f_equal. apply IH. lia.
Qed.

Lemma losses_row_target (row : list R) :
  forall (j k : nat),
    (k < length row)%nat ->
    zip_with (entry_loss self) (set_one k (map (fun _ => 0%Z) row)) (lift1 row)
    = lift1 (penalties_from mp mm lam j (Z.of_nat (j + k)) row).
Proof.
  induction row as [|len row IH]; intros j k Hk; [simpl in Hk; lia|].
  destruct k as [|k].
  - cbn [map set_one zip_with lift1 penalties_from].
    rewrite entry_loss_target.
    replace (Z.of_nat j =? Z.of_nat (j + 0))%Z with true
      by (symmetry; apply Z.eqb_eq; lia).
    f_equal. apply losses_row_other. lia.
  - cbn [map set_one zip_with lift1 penalties_from].
    rewrite entry_loss_other.
    replace (Z.of_nat j =? Z.of_nat (j + S k))%Z with false
      by (symmetry; apply Z.eqb_neq; lia).
    f_equal.
    replace (j + S k)%nat with (S j + k)%nat by lia.
    apply IH. simpl in Hk. lia.
Qed.

Lemma scatter_losses (C : nat) (lens : list (list R)) :
  Forall (fun v => length v = C) lens ->
  forall targets : list Z,
    length targets = length lens ->
    Forall (fun k => (0 <= k < Z.of_nat C)%Z) targets ->
    exists t : list (list Z),
      scatter_ (map (map (fun _ => 0%Z)) lens) targets = Some t
      /\ losses self t (lift2 lens) = lift2 (penalties mp mm lam lens targets).
Proof.
  induction 1 as [|row lens Hrow _ IH]; intros targets Hlen Hvalid.
  - destruct targets; [|discriminate]. now exists [].
  - destruct targets as [|k targets]; [discriminate|].
    inversion Hvalid as [|? ? Hk Hvalid']; subst.
    destruct (IH targets) as [t [Hsc Hls]]; [simpl in Hlen; lia | assumption |].
    exists (set_one (Z.to_nat k) (map (fun _ => 0%Z) row) :: t).
    cbn [map scatter_]. rewrite length_map.
    replace ((0 <=? k)%Z && (k <? Z.of_nat (length row))%Z)%bool with true.
    2: { symmetry. apply andb_true_iff. split;
         [apply Z.leb_le | apply Z.ltb_lt]; lia. }
    rewrite Hsc. split; [reflexivity|].
    unfold losses, penalties, lift2 in *. cbn [map zip_with].
    rewrite Hls. f_equal.
    rewrite (losses_row_target row 0 (Z.to_nat k)) by lia.
    do 2 f_equal. lia.
Qed.

Lemma sum_lift (l : list R) : sum (lift1 l) = Fin (Rsum l).
Proof.
  induction l as [|x l IH]; [reflexivity|].
  unfold lift1, sum, Rsum in *. cbn [map fold_right].
  rewrite IH. reflexivity.
Qed.

Lemma concat_lift2 (m : list (list R)) : concat (lift2 m) = lift1 (concat m).
Proof. unfold lift2, lift1. symmetry. apply concat_map. Qed.

Lemma penalties_from_length (k : Z) (row : list R) :
  forall j, length (penalties_from mp mm lam j k row) = length row.
Proof.
  induction row as [|len row IH]; intros j; [reflexivity|].
  cbn [penalties_from length]. now rewrite IH.
Qed.

Lemma penalties_numel (C : nat) (lens : list (list R)) :
  Forall (fun v => length v = C) lens ->
  forall targets : list Z,
    length targets = length lens ->
    length (concat (penalties mp mm lam lens targets)) = (length lens * C)%nat.
Proof.
  induction 1 as [|row lens Hrow _ IH]; intros targets Hlen.
  - destruct targets; [reflexivity | discriminate].
  - destruct targets as [|k targets]; [discriminate|].
    unfold penalties in *. cbn [zip_with concat length].
    rewrite length_app, penalties_from_length, IH by (simpl in Hlen; lia).
    lia.
Qed.

End LossReal.

Section LossValue.
Local Open Scope R_scope.
Variables mp mm lam : R.

Lemma nth_penalties_from (k : Z) (row : list R) :
  forall j0 j : nat,
    (j < length row)%nat ->
    nth j (penalties_from mp mm lam j0 k row) 0
    = penalty mp mm lam (Z.of_nat (j0 + j) =? k)%Z (nth j row 0).
Proof.
  induction row as [|len row IH]; intros j0 j Hj; [simpl in Hj; lia|].
  destruct j as [|j]; cbn [penalties_from nth].
  - now rewrite Nat.add_0_r.
  - rewrite IH by (simpl in Hj; lia).
    now replace (S j0 + j)%nat with (j0 + S j)%nat by lia.
Qed.

Lemma nth_penalties (lens : list (list R)) :
  forall (targets : list Z) (i : nat),
    (i < length lens)%nat -> length targets = length lens ->
    nth i (penalties mp mm lam lens targets) []
    = penalties_from mp mm lam 0 (nth i targets 0%Z) (nth i lens []).
Proof.
  unfold penalties.
  induction lens as [|row lens IH]; intros targets i Hi Hlen;
    [simpl in Hi; lia|].
  destruct targets as [|k targets]; [discriminate|].
  destruct i as [|i]; cbn [zip_with nth]; [reflexivity|].
  apply IH; simpl in Hi, Hlen; lia.
Qed.

(** C7: for lengths of shape [batch, n_classes] and valid targets,
    [MarginLoss.forward] returns the mean (flag true) or the sum (flag
    false) over all entries of the penalties, where the penalty of class
    [j] for batch item [i] is [max(0, m_plus - length)^2] if [j] is the
    target of [i] and [lambda * max(0, length - m_minus)^2] otherwise; a
    target class of length [m_plus] and another class of length [m_minus]
    have penalty zero. *)
Theorem margin_loss_value (B C : nat) (lens : list (list R)) (targets : list Z) :
  (0 < B)%nat -> shape2 B C lens ->
  length targets = B ->
  Forall (fun k => (0 <= k < Z.of_nat C)%Z) targets ->
  let self := {| m_plus := Fin mp; m_minus := Fin mm; lambda_ := Fin lam |} in
  let P := penalties mp mm lam lens targets in
  loss_forward self (lift2 lens) targets true
  = Some (Fin (Rsum (concat P) / INR (B * C)))
  /\ loss_forward self (lift2 lens) targets false = Some (Fin (Rsum (concat P)))
  /\ (forall i j, (i < B)%nat -> (j < C)%nat ->
        nth j (nth i P []) 0
        = penalty mp mm lam (Z.of_nat j =? nth i targets 0%Z)%Z
                  (nth j (nth i lens []) 0))
  /\ penalty mp mm lam true mp = 0
  /\ penalty mp mm lam false mm = 0.
Proof.
  intros HB [Hlen Hrows] Htl Hvalid self P.
  assert (HC : (0 < C)%nat).
  { destruct targets as [|k targets]; [simpl in Htl; lia|].
    inversion Hvalid; subst. lia. }
  destruct (scatter_losses mp mm lam C lens Hrows targets) as [t [Hsc Hls]];
    [lia | assumption |].
  assert (Hmask : map (map (fun _ : xreal => 0%Z)) (lift2 lens)
                  = map (map (fun _ : R => 0%Z)) lens).
  { unfold lift2, lift1. rewrite map_map. apply map_ext. intros row.
    now rewrite map_map. }
  assert (Hnumel : length (concat P) = (B * C)%nat).
  { subst P. rewrite (penalties_numel mp mm lam C) by (try assumption; lia).
    now rewrite Hlen. }
  assert (Hrun : forall flag,
             loss_forward self (lift2 lens) targets flag
             = Some (if flag then mean_all (lift2 P) else sum_all (lift2 P))).
  { intros flag. unfold loss_forward. rewrite Hmask, Hsc.
    unfold self. now rewrite Hls. }
  assert (Hsum : sum_all (lift2 P) = Fin (Rsum (concat P))).
  { unfold sum_all. now rewrite concat_lift2, sum_lift. }
  repeat split.
  - rewrite Hrun. f_equal. unfold mean_all. rewrite Hsum.
    rewrite concat_lift2. unfold lift1. rewrite length_map, Hnumel.
    cbn [of_int div xreal_scalar xreal_arith].
    rewrite <- INR_IZR_INZ. apply xdiv_fin.
    apply not_0_INR. nia.
  - rewrite Hrun. now f_equal.
  - intros i j Hi Hj. subst P.
    rewrite nth_penalties by lia.
    rewrite nth_penalties_from; [reflexivity|].
    rewrite Forall_forall in Hrows. rewrite (Hrows (nth i lens [])); [lia|].
    apply nth_In. lia.
  - unfold penalty. rewrite Rminus_diag. rewrite Rmax_left by lra. ring.
  - unfold penalty. rewrite Rminus_diag. rewrite Rmax_left by lra. ring.
Qed.

End LossValue.

Lemma margin_loss_value_witness :
  let self := {| m_plus := Fin 1; m_minus := Fin 0; lambda_ := Fin 1 |} in
  let P := penalties 1 0 1 [[1; 0]%R] [0%Z] in
  loss_forward self (lift2 [[1; 0]%R]) [0%Z] true
  = Some (Fin (Rsum (concat P) / INR (1 * 2)))
  /\ loss_forward self (lift2 [[1; 0]%R]) [0%Z] false
     = Some (Fin (Rsum (concat P)))
  /\ (forall i j, i < 1 -> j < 2 ->
        nth j (nth i P []) 0%R
        = penalty 1 0 1 (Z.of_nat j =? nth i [0%Z] 0%Z)%Z
                  (nth j (nth i [[1; 0]%R] []) 0%R))
  /\ penalty 1 0 1 true 1 = 0%R
  /\ penalty 1 0 1 false 0 = 0%R.
Proof.
  apply (margin_loss_value 1 0 1 1 2 [[1; 0]%R] [0%Z]).
  - lia.
  - split; [reflexivity | repeat constructor].
  - reflexivity.
  - repeat constructor; simpl; lia.
Defined.

(** ** Shapes through the network *)

Section ShapeLemmas.
Local Open Scope N_scope.
Import Shape.

Lemma view_known_some (dims : list N) :
  fold_right (fun d p => match d with Some k => k * p | None => p end) 1
             (map Some dims)
  = fold_right N.mul 1 dims.
Proof.
  induction dims as [|d dims IH]; [reflexivity|].
  cbn [map fold_right]. now rewrite IH.
Qed.

Lemma view_holes_some (dims : list N) :
  filter (fun d : option N => match d with None => true | _ => false end)
         (map Some dims) = [].
Proof. induction dims as [|d dims IH]; [reflexivity | exact IH]. Qed.

Lemma view_fill_some (r : N) (dims : list N) :
  map (fun d : option N => match d with Some k => k | None => r end)
      (map Some dims) = dims.
Proof.
  induction dims as [|d dims IH]; [reflexivity|].
  cbn [map]. now rewrite IH.
Qed.

Lemma view_known_hole (pre post : list N) :
  fold_right (fun d p => match d with Some k => k * p | None => p end) 1
             (map Some pre ++ None :: map Some post)
  = fold_right N.mul 1 (pre ++ post).
Proof.
  induction pre as [|d pre IH].
  - cbn [map app fold_right]. apply view_known_some.
  - cbn [map app fold_right]. now rewrite IH.
Qed.

(** A [view] without [-1] succeeds when the number of elements agrees. *)
Lemma view_all (dims : list N) (x : shape) :
  fold_right N.mul 1 dims = numel x ->
  view (map Some dims) x = Some dims.
Proof.
  intros Hn. unfold view.
  rewrite view_holes_some, view_known_some. cbn [length].
  rewrite Hn, N.eqb_refl. now rewrite view_fill_some.
Qed.

(** A [view] with one [-1] infers the missing size. *)
Lemma view_one_hole (pre post : list N) (x : shape) (r : N) :
  0 < fold_right N.mul 1 (pre ++ post) ->
  numel x = r * fold_right N.mul 1 (pre ++ post) ->
  view (map Some pre ++ None :: map Some post) x = Some (pre ++ r :: post).
Proof.
  intros Hpos Hn. unfold view.
  rewrite view_known_hole.
  rewrite filter_app, view_holes_some. cbn [filter app length].
  rewrite view_holes_some. cbn [length].
  rewrite (proj2 (N.ltb_lt _ _) Hpos).
  rewrite Hn, N.Div0.mod_mul, N.eqb_refl. cbn [andb].
  rewrite N.div_mul by (apply N.neq_0_lt_0; exact Hpos).
  rewrite map_app. cbn [map]. now rewrite !view_fill_some.
Qed.

End ShapeLemmas.

Section ShapeProofs.
Local Open Scope N_scope.
Import Shape.
Variable B : N.
Hypothesis HB : 0 < B.

Ltac view_exact dims x :=
  let E := fresh "E" in
  pose proof (view_all dims x) as E;
  cbn [map fold_right numel] in E;
  rewrite E by lia; clear E.

Ltac view_infer pre post x r :=
  let E := fresh "E" in
  pose proof (view_one_hole pre post x r) as E;
  cbn [map app fold_right numel] in E;
  rewrite E by lia; clear E.

Lemma squash_shape3 (c d : N) : squash [B; c; d] = Some [B; c; d].
Proof.
  unfold squash. cbn [sum_dim length Nat.ltb Nat.leb firstn skipn app nth bind].
  view_exact [B; c; 1] [B; c].
  cbn [bind]. unfold broadcast. cbn [rev app broadcast_rev].
  rewrite !N.eqb_refl. cbn [option_map].
  destruct (d =? 1) eqn:Hd.
  - apply N.eqb_eq in Hd. subst d. reflexivity.
  - destruct (1 =? 1); reflexivity.
Qed.

Lemma conv1_shape : CapsuleNet_conv1 [B; 1; 28; 28] = Some [B; 256; 20; 20].
Proof. reflexivity. Qed.

Lemma firstCaps_shape :
  CapsuleNet_firstCaps [B; 256; 20; 20] = Some [B; 1152; 8].
Proof.
  unfold CapsuleNet_firstCaps, FirstCapsuleLayer_forward.
  change (conv2d 256 (32 * 8) 9 2 [B; 256; 20; 20]) with (Some [B; 256; 6; 6]).
  cbn [bind].
  view_exact [B; 32; 8; 6; 6] [B; 256; 6; 6].
  cbn [bind].
  change (permute [0; 1; 3; 4; 2]%nat [B; 32; 8; 6; 6])
    with (Some [B; 32; 6; 6; 8]).
  cbn [bind nth].
  view_infer [B] [8] [B; 32; 6; 6; 8] 1152.
  cbn [app]. apply squash_shape3.
Qed.

Variable n_classes : N.
Hypothesis Hn : 0 < n_classes.

(** One pass of the routing loop keeps the shapes of [b_batch] and [v]. *)
Lemma route_round_shape :
  route_round 1152 n_classes [B; 1152; n_classes; 16]
              ([B; 1152; n_classes], [B; n_classes; 16])
  = Some ([B; 1152; n_classes], [B; n_classes; 16]).
Proof.
  unfold route_round.
  cbn [unsqueeze length Nat.leb firstn skipn app bind].
  unfold broadcast at 1. cbn [rev app broadcast_rev].
  rewrite !N.eqb_refl. cbn [option_map N.eqb Pos.eqb rev app bind].
  cbn [sum_dim length Nat.ltb Nat.leb firstn skipn app bind].
  unfold broadcast at 1. cbn [rev app broadcast_rev].
  rewrite !N.eqb_refl. cbn [option_map N.eqb Pos.eqb rev app bind].
  view_infer (@nil N) [n_classes] [B; 1152; n_classes] (B * 1152).
  cbn [bind].
  view_infer (@nil N) [1152; n_classes; 1] [B * 1152; n_classes] B.
  cbn [bind].
  unfold broadcast at 1. cbn [rev app broadcast_rev].
  rewrite !N.eqb_refl. cbn [option_map N.eqb Pos.eqb rev app bind].
  cbn [sum_dim length Nat.ltb Nat.leb firstn skipn app bind].
  rewrite squash_shape3. reflexivity.
Qed.

Lemma route_loop_shape (rs : list nat) :
  route_loop rs 1152 n_classes [B; 1152; n_classes; 16]
             ([B; 1152; n_classes], [B; n_classes; 16])
  = Some ([B; 1152; n_classes], [B; n_classes; 16]).
Proof.
  induction rs as [|r rs IH]; [reflexivity|].
  cbn [route_loop]. rewrite route_round_shape. exact IH.
Qed.

Lemma DynamicRouting_shape (routing_iterations : Z) :
  DynamicRouting_forward routing_iterations [1152; n_classes]
                         [B; 1152; n_classes; 16]
  = Some [B; n_classes; 16].
Proof.
  unfold DynamicRouting_forward.
  cbn [unsqueeze length Nat.leb firstn skipn app bind].
  unfold broadcast at 1. cbn [rev app broadcast_rev].
  rewrite !N.eqb_refl. cbn [option_map N.eqb Pos.eqb rev app bind].
  cbn [sum_dim length Nat.ltb Nat.leb firstn skipn app bind].
  rewrite squash_shape3. cbn [bind].
  destruct (0 <? routing_iterations)%Z; [|reflexivity].
  unfold expand, broadcast. cbn [rev app broadcast_rev].
  rewrite !N.eqb_refl. cbn [option_map N.eqb Pos.eqb rev app].
  destruct (list_eq_dec N.eq_dec [B; 1152; n_classes] [B; 1152; n_classes])
    as [_|Hne]; [|now destruct Hne].
  cbn [bind]. rewrite route_loop_shape. reflexivity.
Qed.

Lemma Caps_shape (routing_iterations : Z) :
  CapsuleNet_Caps routing_iterations n_classes [B; 1152; 8]
  = Some [B; n_classes; 16].
Proof.
  unfold CapsuleNet_Caps, CapsLayer_forward.
  change num_firstCaps with 1152.
  cbn [unsqueeze length Nat.leb firstn skipn app bind].
  unfold matmul. cbn [rev app N.eqb Pos.eqb broadcast_rev option_map].
  cbn [bind nth].
  view_exact [B; 1152; n_classes; 16] [B; 1152; 1; 16 * n_classes].
  cbn [bind]. apply DynamicRouting_shape.
Qed.

Lemma CapsuleNet_shape (routing_iterations : Z) :
  CapsuleNet_forward routing_iterations n_classes [B; 1; 28; 28]
  = Some ([B; n_classes; 16], [B; n_classes]).
Proof.
  unfold CapsuleNet_forward.
  rewrite conv1_shape. cbn [bind].
  rewrite firstCaps_shape. cbn [bind].
  rewrite Caps_shape. reflexivity.
Qed.

End ShapeProofs.

Lemma lengths_lift (x : list (list (list R))) :
  lengths (lift3 x) = lift2 (map (map norm) x).
Proof.
  unfold lengths, lift3, lift2, lift1. rewrite !map_map.
  apply map_ext. intros m. rewrite !map_map.
  apply map_ext. intros v.
  change (map Fin v) with (lift1 v). rewrite sum_pow2_lift.
  cbn [sqrt xreal_arith]. apply xsqrt_fin. apply sumsq_nonneg.
Qed.

(** C8: for an input of shape [batch, 1, 28, 28] the first convolution
    gives a 20 x 20 feature map, the convolution of the primary capsule
    layer a 6 x 6 one, so that there are [32 * 6 * 6 = 1152] primary
    capsules of dimension 8; the capsule layer maps them to
    [batch, n_classes, 16], and the probabilities, which are the Euclidean
    norms of the class capsules, have shape [batch, n_classes]. *)
Theorem capsule_net_shapes (B n_classes : N) (routing_iterations : Z) :
  (0 < B)%N -> (0 < n_classes)%N ->
  Shape.CapsuleNet_conv1 [B; 1; 28; 28]%N = Some [B; 256; 20; 20]%N
  /\ Shape.conv2d 256 (32 * 8) 9 2 [B; 256; 20; 20]%N = Some [B; 256; 6; 6]%N
  /\ Shape.num_firstCaps = 1152%N
  /\ Shape.CapsuleNet_firstCaps [B; 256; 20; 20]%N = Some [B; 1152; 8]%N
  /\ Shape.CapsuleNet_Caps routing_iterations n_classes [B; 1152; 8]%N
     = Some [B; n_classes; 16%N]
  /\ Shape.CapsuleNet_forward routing_iterations n_classes [B; 1; 28; 28]%N
     = Some ([B; n_classes; 16%N], [B; n_classes])
  /\ (forall x : list (list (list R)),
        lengths (lift3 x) = lift2 (map (map norm) x)).
Proof.
  intros HB Hn. repeat split.
  - now apply firstCaps_shape.
  - now apply Caps_shape.
  - now apply CapsuleNet_shape.
  - apply lengths_lift.
Qed.

Lemma capsule_net_shapes_witness :
  Shape.CapsuleNet_conv1 [5; 1; 28; 28]%N = Some [5; 256; 20; 20]%N
  /\ Shape.conv2d 256 (32 * 8) 9 2 [5; 256; 20; 20]%N = Some [5; 256; 6; 6]%N
  /\ Shape.num_firstCaps = 1152%N
  /\ Shape.CapsuleNet_firstCaps [5; 256; 20; 20]%N = Some [5; 1152; 8]%N
  /\ Shape.CapsuleNet_Caps 3 10 [5; 1152; 8]%N = Some [5; 10; 16]%N
  /\ Shape.CapsuleNet_forward 3 10 [5; 1; 28; 28]%N
     = Some ([5; 10; 16]%N, [5; 10]%N)
  /\ (forall x : list (list (list R)),
        lengths (lift3 x) = lift2 (map (map norm) x)).
Proof.
  apply (capsule_net_shapes 5 10 3); reflexivity.
Defined.

(** * Further properties of the code *)

(** ** Not a number

    A sum with a term that is not a number is not a number. *)

Lemma sum_nan (l : list xreal) : In NaN l -> sum l = NaN.
Proof.
  induction l as [|x l IH]; intros Hin; [contradiction|].
  change (sum (x :: l)) with (add x (sum l)).
  destruct Hin as [-> | Hin]; [reflexivity|].
  rewrite IH by assumption. now destruct x.
Qed.

(** ** A freshly built routing module *)

Section FreshModule.
Local Open Scope R_scope.

Lemma Rsum_repeat (a : R) (n : nat) : Rsum (repeat a n) = INR n * a.
Proof.
  induction n as [|n IH]; unfold Rsum in *.
  - cbn [repeat fold_right INR]. ring.
  - cbn [repeat fold_right]. rewrite IH, S_INR. ring.
Qed.

(** X5: With the logits [__init__] installs, all zero, the coupling computed
    at line 29 is uniform: every input capsule gives each of the
    [output_caps] output capsules the coefficient [1 / output_caps]. *)
Theorem initial_coupling_uniform (input_caps output_caps : nat) (n : Z) :
  (0 < output_caps)%nat ->
  initial_c (DynamicRouting_init input_caps output_caps n)
  = repeat (repeat (Fin (1 / INR output_caps)) output_caps) input_caps.
Proof.
  intros HO. unfold initial_c, DynamicRouting_init, softmax, zeros2.
  cbn [b]. rewrite map_repeat. f_equal.
  cbn [zero xreal_arith].
  rewrite <- (map_repeat 0 output_caps Fin).
  change (map Fin (repeat 0 output_caps)) with (lift1 (repeat 0 output_caps)).
  rewrite softmax_row_lift.
  - rewrite !map_repeat, Rsum_repeat, exp_0.
    unfold lift1. rewrite map_repeat. do 2 f_equal.
    field. apply not_0_INR. lia.
  - destruct output_caps; [lia | discriminate].
Qed.

Lemma initial_coupling_uniform_witness :
  initial_c (DynamicRouting_init 3 2 3)
  = repeat (repeat (Fin (1 / INR 2)) 2) 3.
Proof.
  apply (initial_coupling_uniform 3 2 3). lia.
Defined.

End FreshModule.

(** ** MarginLoss: when it fails *)

Section LossErrors.
Context {num : Type} `{Scalar num}.

Lemma scatter_succeeds_iff (targets : list Z) :
  forall t : list (list Z),
    scatter_ t targets <> None <->
    (length targets <= length t
     /\ forall i, i < length targets ->
          (0 <= nth i targets 0 < Z.of_nat (length (nth i t [])))%Z).
Proof.
  induction targets as [|k ks IH]; intros t.
  - cbn [scatter_ length]. split.
    + intros _. split; [lia|]. intros i Hi. lia.
    + intros _. destruct t; discriminate.
  - destruct t as [|row rows].
    + cbn [scatter_ length]. split; [intros Hn; now destruct Hn|]. intros [Hle _]. lia.
    + cbn [scatter_ length].
      destruct ((0 <=? k)%Z && (k <? Z.of_nat (length row))%Z)%bool eqn:Hk.
      * apply andb_true_iff in Hk as [Hk0 Hk1].
        apply Z.leb_le in Hk0. apply Z.ltb_lt in Hk1.
        specialize (IH rows).
        destruct (scatter_ rows ks) as [t'|].
        -- cbn [option_map]. split; [|discriminate].
           intros _. destruct IH as [IH _].
           destruct IH as [Hle Hall]; [discriminate|].
           split; [lia|]. intros [|i] Hi; cbn [nth]; [lia|].
           apply Hall. lia.
        -- cbn [option_map]. split; [intros Hn; now destruct Hn|].
           intros [Hle Hall]. exfalso.
           destruct IH as [_ IH]. apply IH; [|reflexivity].
           split; [lia|]. intros i Hi.
           apply (Hall (S i)). lia.
      * split; [intros Hn; now destruct Hn|]. intros [_ Hall]. exfalso.
        specialize (Hall 0%nat ltac:(lia)). cbn [nth] in Hall.
        apply andb_false_iff in Hk as [Hk|Hk];
          [apply Z.leb_gt in Hk | apply Z.ltb_ge in Hk]; lia.
Qed.

(** X6: [MarginLoss.forward] returns a loss exactly when there are no more
    targets than rows of lengths and every target is the index of a class
    of its row; otherwise [scatter_] raises.  Rows beyond the last target
    are accepted. *)
Theorem loss_forward_succeeds_iff (self : MarginLoss) (length_ : tensor2 num)
        (targets : list Z) (loss_sum : bool) :
  loss_forward self length_ targets loss_sum <> None <->
  (length targets <= length length_
   /\ forall i, i < length targets ->
        (0 <= nth i targets 0 < Z.of_nat (length (nth i length_ [])))%Z).
Proof.
  unfold loss_forward.
  pose proof (scatter_succeeds_iff targets
                (map (map (fun _ : num => 0%Z)) length_)) as Hsc.
  rewrite length_map in Hsc.
  assert (Hrow : forall i,
             length (nth i (map (map (fun _ : num => 0%Z)) length_) [])
             = length (nth i length_ [])).
  { intros i.
    rewrite (nth_map_nil (map (fun _ : num => 0%Z)) length_ i eq_refl).
    apply length_map. }
  destruct (scatter_ (map (map (fun _ : num => 0%Z)) length_) targets) as [t|].
  - split; [|discriminate]. intros _.
    destruct Hsc as [Hsc _]. destruct Hsc as [Hle Hall]; [discriminate|].
    split; [exact Hle|]. intros i Hi. rewrite <- Hrow. now apply Hall.
  - split; [intros Hn; now destruct Hn|]. intros [Hle Hall]. exfalso.
    destruct Hsc as [_ Hsc]. apply Hsc; [|reflexivity].
    split; [exact Hle|]. intros i Hi. rewrite Hrow. now apply Hall.
Qed.

End LossErrors.

(** ** MarginLoss: sign and zero *)

Section LossSign.
Local Open Scope R_scope.
Variables mp mm lam : R.

Let self : MarginLoss :=
  {| m_plus := Fin mp; m_minus := Fin mm; lambda_ := Fin lam |}.

(** The value [forward] returns on finite lengths and valid targets. *)
Lemma loss_forward_penalties (C : nat) (lens : list (list R))
      (targets : list Z) (flag : bool) :
  Forall (fun v => length v = C) lens ->
  length targets = length lens ->
  Forall (fun k => (0 <= k < Z.of_nat C)%Z) targets ->
  loss_forward self (lift2 lens) targets flag
  = Some (if flag
          then xdiv (Fin (Rsum (concat (penalties mp mm lam lens targets))))
                    (Fin (INR (length lens * C)))
          else Fin (Rsum (concat (penalties mp mm lam lens targets)))).
Proof.
  intros Hrows Hlen Hvalid.
  destruct (scatter_losses mp mm lam C lens Hrows targets Hlen Hvalid)
    as [t [Hsc Hls]].
  assert (Hmask : map (map (fun _ : xreal => 0%Z)) (lift2 lens)
                  = map (map (fun _ : R => 0%Z)) lens).
  { unfold lift2, lift1. rewrite map_map. apply map_ext. intros row.
    now rewrite map_map. }
  unfold loss_forward. rewrite Hmask, Hsc. unfold self. rewrite Hls.
  f_equal. unfold mean_all, sum_all.
  rewrite concat_lift2, sum_lift. unfold lift1. rewrite length_map.
  rewrite (penalties_numel mp mm lam C) by assumption.
  cbn [of_int div xreal_scalar xreal_arith].
  now rewrite <- INR_IZR_INZ.
Qed.

Lemma penalty_nonneg (is_target : bool) (len : R) :
  0 <= lam -> 0 <= penalty mp mm lam is_target len.
Proof.
  intros Hlam. unfold penalty.
  destruct is_target.
  - apply Rle_0_sqr.
  - apply Rmult_le_pos; [assumption | apply Rle_0_sqr].
Qed.

Lemma penalties_from_nonneg (k : Z) (row : list R) :
  0 <= lam ->
  forall j, Forall (fun x => 0 <= x) (penalties_from mp mm lam j k row).
Proof.
  intros Hlam. induction row as [|len row IH]; intros j; cbn [penalties_from].
  - constructor.
  - constructor; [now apply penalty_nonneg | apply IH].
Qed.

Lemma penalties_nonneg (lens : list (list R)) :
  0 <= lam ->
  forall targets,
    Forall (fun x => 0 <= x) (concat (penalties mp mm lam lens targets)).
Proof.
  intros Hlam. unfold penalties.
  induction lens as [|row lens IH]; intros targets; [constructor|].
  destruct targets as [|k targets]; [constructor|].
  cbn [zip_with concat]. apply Forall_app. split.
  - now apply penalties_from_nonneg.
  - apply IH.
Qed.

Lemma Rsum_nonneg (l : list R) : Forall (fun x => 0 <= x) l -> 0 <= Rsum l.
Proof.
  induction 1 as [|x l Hx _ IH]; unfold Rsum in *; cbn [fold_right]; lra.
Qed.

Lemma Rsum_zero_iff (l : list R) :
  Forall (fun x => 0 <= x) l ->
  (Rsum l = 0 <-> Forall (fun x => x = 0) l).
Proof.
  induction 1 as [|x l Hx Hl IH].
  - split; [constructor | reflexivity].
  - pose proof (Rsum_nonneg l Hl) as Hs.
    change (Rsum (x :: l)) with (x + Rsum l).
    split.
    + intros E. constructor; [lra|]. apply IH. lra.
    + intros Hall. inversion Hall as [|? ? Hx0 Hl0]; subst.
      apply IH in Hl0. lra.
Qed.

(** X7: With [lambda >= 0] the loss is never negative, as a mean and as a
    sum. *)
Theorem loss_nonneg (B C : nat) (lens : list (list R)) (targets : list Z)
        (flag : bool) :
  (0 < B)%nat -> shape2 B C lens ->
  length targets = B ->
  Forall (fun k => (0 <= k < Z.of_nat C)%Z) targets ->
  0 <= lam ->
  exists r : R,
    loss_forward self (lift2 lens) targets flag = Some (Fin r) /\ 0 <= r.
Proof.
  intros HB [Hlen Hrows] Htl Hvalid Hlam.
  assert (HC : (0 < C)%nat).
  { destruct targets as [|k targets]; [simpl in Htl; lia|].
    inversion Hvalid; subst. lia. }
  rewrite (loss_forward_penalties C) by (try assumption; lia).
  pose proof (Rsum_nonneg _ (penalties_nonneg lens Hlam targets)) as Hs.
  destruct flag.
  - assert (Hn : 0 < INR (length lens * C)).
    { apply lt_0_INR. rewrite Hlen. nia. }
    rewrite xdiv_fin by lra.
    eexists. split; [reflexivity|].
    unfold Rdiv. apply Rmult_le_pos; [assumption|].
    apply Rlt_le, Rinv_0_lt_compat. assumption.
  - eexists. split; [reflexivity | assumption].
Qed.

End LossSign.

Lemma loss_nonneg_witness :
  exists r : R,
    loss_forward {| m_plus := Fin 1; m_minus := Fin 0; lambda_ := Fin 1 |}
                 (lift2 [[1; 0]%R]) [0%Z] true = Some (Fin r)
    /\ (0 <= r)%R.
Proof.
  apply (loss_nonneg 1 0 1 1 2 [[1; 0]%R] [0%Z] true).
  - lia.
  - split; [reflexivity | repeat constructor].
  - reflexivity.
  - repeat constructor; simpl; lia.
  - lra.
Defined.

Section LossZero.
Local Open Scope R_scope.
Variables mp mm lam : R.

Lemma Rmax_0_zero_iff (y : R) : Rmax 0 y * Rmax 0 y = 0 <-> y <= 0.
Proof.
  split.
  - intros E. destruct (Rmult_integral _ _ E) as [E0|E0];
      (destruct (Rle_dec y 0) as [Hy|Hy]; [exact Hy|];
       rewrite Rmax_right in E0 by lra; lra).
  - intros Hy. rewrite Rmax_left by lra. ring.
Qed.

Lemma penalty_zero_iff (is_target : bool) (len : R) :
  0 < lam ->
  (penalty mp mm lam is_target len = 0
   <-> if is_target then mp <= len else len <= mm).
Proof.
  intros Hlam. unfold penalty. destruct is_target.
  - rewrite Rmax_0_zero_iff. split; lra.
  - split.
    + intros E. destruct (Rmult_integral _ _ E) as [E0|E0]; [lra|].
      apply Rmax_0_zero_iff in E0. lra.
    + intros Hle.
      assert (E : Rmax 0 (len - mm) * Rmax 0 (len - mm) = 0)
        by (apply Rmax_0_zero_iff; lra).
      rewrite E. ring.
Qed.

Lemma penalties_shape (B C : nat) (lens : list (list R)) :
  Forall (fun v => length v = C) lens ->
  forall targets : list Z,
    length targets = length lens -> length lens = B ->
    shape2 B C (penalties mp mm lam lens targets).
Proof.
  unfold penalties.
  intros Hrows. revert B.
  induction Hrows as [|row lens Hrow _ IH]; intros B targets Hlen HB.
  - destruct targets; [|discriminate]. subst B. split; [reflexivity | constructor].
  - destruct targets as [|k targets]; [discriminate|].
    destruct B as [|B]; [discriminate|].
    destruct (IH B targets) as [Hl Hr]; [simpl in Hlen; lia | simpl in HB; lia |].
    cbn [zip_with]. split; [cbn [length]; now rewrite Hl|].
    constructor; [|exact Hr].
    now rewrite penalties_from_length.
Qed.

Lemma all_zero_entries (B C : nat) (P : list (list R)) :
  shape2 B C P ->
  (Forall (fun x => x = 0) (concat P)
   <-> forall i j, (i < B)%nat -> (j < C)%nat -> nth j (nth i P []) 0 = 0).
Proof.
  intros [HB Hrows]. split.
  - intros Hall i j Hi Hj.
    rewrite Forall_forall in Hall, Hrows. apply Hall.
    apply in_concat. exists (nth i P []). split.
    + apply nth_In. lia.
    + apply nth_In. rewrite (Hrows (nth i P [])); [lia|]. apply nth_In. lia.
  - intros Hall. apply Forall_concat.
    apply Forall_forall. intros row Hrow.
    apply Forall_forall. intros x Hx.
    destruct (In_nth _ _ [] Hrow) as [i [Hi <-]].
    destruct (In_nth _ _ 0 Hx) as [j [Hj <-]].
    rewrite Forall_forall in Hrows.
    rewrite (Hrows (nth i P [])) in Hj by (apply nth_In; lia).
    apply Hall; lia.
Qed.

(** X8: With [lambda > 0] the loss is zero exactly when every target class has
    length at least [m_plus] and every other class has length at most
    [m_minus]. *)
Theorem loss_zero_iff (B C : nat) (lens : list (list R)) (targets : list Z)
        (flag : bool) :
  (0 < B)%nat -> shape2 B C lens ->
  length targets = B ->
  Forall (fun k => (0 <= k < Z.of_nat C)%Z) targets ->
  0 < lam ->
  (loss_forward {| m_plus := Fin mp; m_minus := Fin mm; lambda_ := Fin lam |}
                (lift2 lens) targets flag = Some (Fin 0)
   <-> forall i j, (i < B)%nat -> (j < C)%nat ->
         if (Z.of_nat j =? nth i targets 0%Z)%Z
         then mp <= nth j (nth i lens []) 0
         else nth j (nth i lens []) 0 <= mm).
Proof.
  intros HB [Hlen Hrows] Htl Hvalid Hlam.
  assert (HC : (0 < C)%nat).
  { destruct targets as [|k targets]; [simpl in Htl; lia|].
    inversion Hvalid; subst. lia. }
  rewrite (loss_forward_penalties mp mm lam C) by (try assumption; lia).
  set (P := penalties mp mm lam lens targets).
  assert (Hnn : Forall (fun x => 0 <= x) (concat P)).
  { apply penalties_nonneg. lra. }
  assert (HP : shape2 B C P).
  { apply penalties_shape; try assumption; lia. }
  assert (Hn : 0 < INR (length lens * C)).
  { apply lt_0_INR. rewrite Hlen. nia. }
  assert (Hval : (if flag
                  then xdiv (Fin (Rsum (concat P))) (Fin (INR (length lens * C)))
                  else Fin (Rsum (concat P))) = Fin 0
                 <-> Rsum (concat P) = 0).
  { destruct flag.
    - rewrite xdiv_fin by lra. split.
      + intros E. injection E as E.
        apply Rmult_eq_reg_r with (r := / INR (length lens * C)).
        * unfold Rdiv in E. rewrite E. ring.
        * apply Rgt_not_eq, Rinv_0_lt_compat. assumption.
      + intros E. rewrite E. f_equal. unfold Rdiv. ring.
    - split; [intros E; now injection E | intros E; now rewrite E]. }
  split.
  - intros E. injection E as E. apply Hval in E.
    apply (Rsum_zero_iff _ Hnn) in E.
    pose proof (proj1 (all_zero_entries B C P HP) E) as E'.
    intros i j Hi Hj. specialize (E' i j Hi Hj).
    clear E. rename E' into E.
    subst P. rewrite nth_penalties in E by lia.
    rewrite nth_penalties_from in E.
    + apply penalty_zero_iff in E; assumption.
    + rewrite Forall_forall in Hrows. rewrite (Hrows (nth i lens [])); [lia|].
      apply nth_In. lia.
  - intros Hm. f_equal. apply Hval.
    apply (Rsum_zero_iff _ Hnn).
    apply (all_zero_entries B C P HP).
    intros i j Hi Hj. subst P. rewrite nth_penalties by lia.
    rewrite nth_penalties_from.
    + apply penalty_zero_iff; [assumption|]. now apply Hm.
    + rewrite Forall_forall in Hrows. rewrite (Hrows (nth i lens [])); [lia|].
      apply nth_In. lia.
Qed.

End LossZero.

Lemma loss_zero_iff_witness :
  loss_forward {| m_plus := Fin 1; m_minus := Fin 0; lambda_ := Fin 1 |}
               (lift2 [[1; 0]%R]) [0%Z] false = Some (Fin 0)
  <-> forall i j, i < 1 -> j < 2 ->
        if (Z.of_nat j =? nth i [0%Z] 0%Z)%Z
        then (1 <= nth j (nth i [[1; 0]%R] []) 0)%R
        else (nth j (nth i [[1; 0]%R] []) 0 <= 0)%R.
Proof.
  apply (loss_zero_iff 1 0 1 1 2 [[1; 0]%R] [0%Z] false).
  - lia.
  - split; [reflexivity | repeat constructor].
  - reflexivity.
  - repeat constructor; simpl; lia.
  - lra.
Defined.

(** X9: The mean over an empty batch is zero divided by zero; the sum over it
    is zero. *)
Theorem loss_empty_batch (self : MarginLoss (num := xreal)) :
  loss_forward self [] [] true = Some NaN
  /\ loss_forward self [] [] false = Some (Fin 0).
Proof.
  unfold loss_forward, mean_all, sum_all.
  cbn [map scatter_ losses zip_with concat sum fold_right length
       zero of_int div xreal_arith xreal_scalar Z.of_nat].
  now rewrite xdiv_zero.
Qed.

(** ** Shapes: which inputs the layers accept *)

Section ShapeGeneral.
Local Open Scope N_scope.
Import Shape.

Ltac view_exact' dims x :=
  let E := fresh "E" in
  pose proof (view_all dims x) as E;
  cbn [map fold_right numel] in E;
  rewrite E by (lia || nia); clear E.

Ltac view_infer' pre post x r :=
  let E := fresh "E" in
  pose proof (view_one_hole pre post x r) as E;
  cbn [map app fold_right numel] in E;
  rewrite E by (lia || nia); clear E.

Lemma broadcast_rev_same (d : N) (x y : list N) :
  broadcast_rev (d :: x) (d :: y) = option_map (cons d) (broadcast_rev x y).
Proof. cbn [broadcast_rev]. now rewrite N.eqb_refl. Qed.

Lemma broadcast_rev_unit_l (d : N) (x y : list N) :
  broadcast_rev (1 :: x) (d :: y) = option_map (cons d) (broadcast_rev x y).
Proof.
  cbn [broadcast_rev]. destruct (1 =? d) eqn:Hd; [|reflexivity].
  apply N.eqb_eq in Hd. now subst d.
Qed.

Lemma broadcast_rev_unit_r (d : N) (x y : list N) :
  broadcast_rev (d :: x) (1 :: y) = option_map (cons d) (broadcast_rev x y).
Proof.
  cbn [broadcast_rev]. destruct (d =? 1) eqn:Hd; [reflexivity|].
  reflexivity.
Qed.

Lemma broadcast_rev_nil_r (x : list N) : broadcast_rev x [] = Some x.
Proof. destruct x; reflexivity. Qed.

Lemma squash_shape_general (a c d : N) : squash [a; c; d] = Some [a; c; d].
Proof.
  unfold squash. cbn [sum_dim length Nat.ltb Nat.leb firstn skipn app nth bind].
  view_exact' [a; c; 1] [a; c].
  cbn [bind]. unfold broadcast. cbn [rev app].
  rewrite broadcast_rev_unit_r, !broadcast_rev_same. reflexivity.
Qed.

Section RoutingShapes.
Variables B I O D : N.
Hypothesis HB : 0 < B.
Hypothesis HI : 0 < I.
Hypothesis HO : 0 < O.

Lemma route_round_shape_general :
  route_round I O [B; I; O; D] ([B; I; O], [B; O; D])
  = Some ([B; I; O], [B; O; D]).
Proof.
  unfold route_round.
  cbn [unsqueeze length Nat.leb firstn skipn app bind].
  unfold broadcast at 1. cbn [rev app].
  rewrite !broadcast_rev_same, broadcast_rev_unit_r, broadcast_rev_same.
  cbn [broadcast_rev option_map rev app bind].
  cbn [sum_dim length Nat.ltb Nat.leb firstn skipn app bind].
  unfold broadcast at 1. cbn [rev app].
  rewrite !broadcast_rev_same. cbn [broadcast_rev option_map rev app bind].
  view_infer' (@nil N) [O] [B; I; O] (B * I).
  cbn [bind].
  view_infer' (@nil N) [I; O; 1] [B * I; O] B.
  cbn [bind].
  unfold broadcast at 1. cbn [rev app].
  rewrite broadcast_rev_unit_l, !broadcast_rev_same.
  cbn [broadcast_rev option_map rev app bind].
  cbn [sum_dim length Nat.ltb Nat.leb firstn skipn app bind].
  rewrite squash_shape_general. reflexivity.
Qed.

Lemma route_loop_shape_general (rs : list nat) :
  route_loop rs I O [B; I; O; D] ([B; I; O], [B; O; D])
  = Some ([B; I; O], [B; O; D]).
Proof.
  induction rs as [|r rs IH]; [reflexivity|].
  cbn [route_loop]. rewrite route_round_shape_general. exact IH.
Qed.

End RoutingShapes.

End ShapeGeneral.

(** X10: For votes of shape [batch, input_caps, output_caps, output_dim] and
    logits of shape [input_caps, output_caps], with a batch and capsule
    counts that are not zero, [DynamicRouting.forward] raises no size error
    and returns shape [batch, output_caps, output_dim], for every number
    of iterations. *)
Theorem routing_accepts_matching_shapes (B I O D : N) (n : Z) :
  (0 < B)%N -> (0 < I)%N -> (0 < O)%N ->
  Shape.DynamicRouting_forward n [I; O] [B; I; O; D] = Some [B; O; D].
Proof.
  intros HB HI HO. unfold Shape.DynamicRouting_forward.
  cbn [Shape.unsqueeze length Nat.leb firstn skipn app Shape.bind].
  unfold Shape.broadcast at 1. cbn [rev app].
  rewrite broadcast_rev_unit_l, !broadcast_rev_same.
  cbn [Shape.broadcast_rev option_map rev app Shape.bind].
  cbn [Shape.sum_dim length Nat.ltb Nat.leb firstn skipn app Shape.bind].
  rewrite squash_shape_general. cbn [Shape.bind].
  destruct (0 <? n)%Z; [|reflexivity].
  unfold Shape.expand, Shape.broadcast. cbn [rev app].
  rewrite !broadcast_rev_same.
  cbn [Shape.broadcast_rev option_map rev app].
  destruct (list_eq_dec N.eq_dec [B; I; O] [B; I; O]) as [_|Hne];
    [|now destruct Hne].
  cbn [Shape.bind]. rewrite route_loop_shape_general by assumption.
  reflexivity.
Qed.

Lemma routing_accepts_matching_shapes_witness :
  Shape.DynamicRouting_forward 3 [1152; 10]%N [4; 1152; 10; 16]%N
  = Some [4; 10; 16]%N.
Proof.
  apply (routing_accepts_matching_shapes 4 1152 10 16 3); reflexivity.
Defined.

(** X11: Logits whose number of input capsules differs from that of the votes
    are rejected (sizes of one broadcast and are not a mismatch). *)
Theorem routing_rejects_mismatch (B I I' O D : N) (n : Z) :
  I' <> I -> I' <> 1%N -> I <> 1%N ->
  Shape.DynamicRouting_forward n [I'; O] [B; I; O; D] = None.
Proof.
  intros Hne H1 H2. unfold Shape.DynamicRouting_forward.
  cbn [Shape.unsqueeze length Nat.leb firstn skipn app Shape.bind].
  unfold Shape.broadcast at 1. cbn [rev app].
  rewrite broadcast_rev_unit_l, broadcast_rev_same.
  cbn [Shape.broadcast_rev].
  apply N.eqb_neq in Hne, H1, H2. rewrite Hne, H1, H2.
  reflexivity.
Qed.

Lemma routing_rejects_mismatch_witness :
  Shape.DynamicRouting_forward 3 [1152; 10]%N [4; 2048; 10; 16]%N = None.
Proof.
  apply (routing_rejects_mismatch 4 2048 1152 10 16 3); discriminate.
Defined.

Section NetworkShapes.
Local Open Scope N_scope.
Import Shape.
Variables B n_classes : N.
Hypothesis HB : 0 < B.
Hypothesis Hn : 0 < n_classes.

Ltac view_exact' dims x :=
  let E := fresh "E" in
  pose proof (view_all dims x) as E;
  cbn [map fold_right numel] in E;
  rewrite E by (lia || nia); clear E.

Ltac view_infer' pre post x r :=
  let E := fresh "E" in
  pose proof (view_one_hole pre post x r) as E;
  cbn [map app fold_right numel] in E;
  rewrite E by (lia || nia); clear E.

Lemma conv1_general (H W : N) :
  CapsuleNet_conv1 [B; 1; H; W]
  = if (9 <=? H) && (9 <=? W) then Some [B; 256; H - 8; W - 8] else None.
Proof.
  clear HB Hn. unfold CapsuleNet_conv1, conv2d.
  cbn [N.eqb Pos.eqb N.leb N.compare Pos.compare Pos.compare_cont andb].
  destruct (9 <=? H) eqn:HH; [|reflexivity].
  destruct (9 <=? W) eqn:HW; [|reflexivity].
  cbn [andb]. apply N.leb_le in HH, HW.
  rewrite !N.div_1_r. do 4 f_equal; [lia|]. f_equal. lia.
Qed.

Lemma firstCaps_general (H1 W1 : N) :
  CapsuleNet_firstCaps [B; 256; H1; W1]
  = if (9 <=? H1) && (9 <=? W1)
    then Some [B; 32 * (((H1 - 9) / 2 + 1) * ((W1 - 9) / 2 + 1)); 8]
    else None.
Proof.
  clear Hn. unfold CapsuleNet_firstCaps, FirstCapsuleLayer_forward, conv2d.
  cbn [N.eqb Pos.eqb N.leb N.compare Pos.compare Pos.compare_cont andb
       N.mul Pos.mul Pos.add bind].
  destruct (9 <=? H1) eqn:HH; [|reflexivity].
  destruct (9 <=? W1) eqn:HW; [|reflexivity].
  cbn [andb bind].
  set (h := (H1 - 9) / 2 + 1). set (w := (W1 - 9) / 2 + 1).
  view_exact' [B; 32; 8; h; w] [B; 256; h; w].
  cbn [bind].
  change (permute [0; 1; 3; 4; 2]%nat [B; 32; 8; h; w])
    with (Some [B; 32; h; w; 8]).
  cbn [bind nth].
  view_infer' [B] [8] [B; 32; h; w; 8] (32 * (h * w)).
  cbn [app]. apply squash_shape_general.
Qed.

Lemma Caps_general (K : N) (routing_iterations : Z) :
  K <> 1 ->
  CapsuleNet_Caps routing_iterations n_classes [B; K; 8]
  = if K =? 1152 then Some [B; n_classes; 16] else None.
Proof.
  intros HK. unfold CapsuleNet_Caps, CapsLayer_forward.
  change num_firstCaps with 1152.
  cbn [unsqueeze length Nat.leb firstn skipn app bind].
  unfold matmul. cbn [rev app N.eqb Pos.eqb broadcast_rev].
  destruct (K =? 1152) eqn:HK'.
  - apply N.eqb_eq in HK'. subst K.
    cbn [option_map bind nth rev app].
    view_exact' [B; 1152; n_classes; 16] [B; 1152; 1; 16 * n_classes].
    cbn [bind]. now apply DynamicRouting_shape.
  - apply N.eqb_neq in HK. rewrite HK. reflexivity.
Qed.

End NetworkShapes.

(** X12: [CapsuleNet.forward] accepts an image of height [H] and width [W]
    exactly when the grid of primary capsules it yields, of
    [((H - 17) / 2 + 1) * ((W - 17) / 2 + 1)] positions, has the 36
    positions that [num_firstCaps = 32 * 6 * 6] assumes; every other size
    ends in a size error. *)
Theorem capsule_net_accepts_iff (B n_classes H W : N) (routing_iterations : Z) :
  (0 < B)%N -> (0 < n_classes)%N ->
  Shape.CapsuleNet_forward routing_iterations n_classes [B; 1; H; W]%N
  = if ((17 <=? H) && (17 <=? W)
        && (((H - 17) / 2 + 1) * ((W - 17) / 2 + 1) =? 36))%N%bool
    then Some ([B; n_classes; 16%N], [B; n_classes])
    else None.
Proof.
  intros HB Hn. unfold Shape.CapsuleNet_forward.
  rewrite conv1_general.
  destruct (9 <=? H)%N eqn:H9; cbn [andb].
  2: { apply N.leb_gt in H9.
       replace (17 <=? H)%N with false by (symmetry; apply N.leb_gt; lia).
       reflexivity. }
  destruct (9 <=? W)%N eqn:W9; cbn [andb].
  2: { apply N.leb_gt in W9.
       replace (17 <=? W)%N with false by (symmetry; apply N.leb_gt; lia).
       now rewrite andb_false_r. }
  apply N.leb_le in H9, W9.
  cbn [Shape.bind]. rewrite firstCaps_general by assumption.
  replace (9 <=? H - 8)%N with (17 <=? H)%N.
  2: { destruct (17 <=? H)%N eqn:E.
       - symmetry. apply N.leb_le. apply N.leb_le in E. lia.
       - symmetry. apply N.leb_gt. apply N.leb_gt in E. lia. }
  replace (9 <=? W - 8)%N with (17 <=? W)%N.
  2: { destruct (17 <=? W)%N eqn:E.
       - symmetry. apply N.leb_le. apply N.leb_le in E. lia.
       - symmetry. apply N.leb_gt. apply N.leb_gt in E. lia. }
  destruct (17 <=? H)%N eqn:H17; cbn [andb]; [|reflexivity].
  destruct (17 <=? W)%N eqn:W17; cbn [andb]; [|reflexivity].
  cbn [Shape.bind].
  replace (H - 8 - 9)%N with (H - 17)%N by lia.
  replace (W - 8 - 9)%N with (W - 17)%N by lia.
  set (h := ((H - 17) / 2 + 1)%N). set (w := ((W - 17) / 2 + 1)%N).
  rewrite (Caps_general B n_classes HB Hn) by lia.
  replace (32 * (h * w) =? 1152)%N with (h * w =? 36)%N.
  2: { destruct (h * w =? 36)%N eqn:E.
       - symmetry. apply N.eqb_eq. apply N.eqb_eq in E. lia.
       - symmetry. apply N.eqb_neq. apply N.eqb_neq in E. lia. }
  destruct (h * w =? 36)%N; reflexivity.
Qed.

Lemma capsule_net_accepts_iff_witness :
  Shape.CapsuleNet_forward 3 10 [2; 1; 24; 34]%N
  = if ((17 <=? 24) && (17 <=? 34)
        && (((24 - 17) / 2 + 1) * ((34 - 17) / 2 + 1) =? 36))%N%bool
    then Some ([2; 10; 16]%N, [2; 10]%N)
    else None.
Proof.
  apply (capsule_net_accepts_iff 2 10 24 34 3); reflexivity.
Defined.

(** ** Batch items are routed independently *)

Section BatchItems.
Context {num : Type} `{Scalar num}.
Variables I O D : nat.

Lemma capsules_item (B : nat) (c : nat -> nat -> nat -> num)
      (u_hat : tensor4 num) (n : nat) :
  n < B ->
  [nth n (capsules B I O D c u_hat) []]
  = capsules 1 I O D (fun _ => c n) [nth n u_hat []].
Proof.
  intros Hn. unfold capsules. rewrite !squash_map.
  unfold weighted_sum.
  rewrite (nth_map_nil (map squash_vec) _ n eq_refl).
  rewrite nth_tabulate by assumption.
  reflexivity.
Qed.

Lemma refine_item (B : nat) (u_hat : tensor4 num) (k : nat) :
  forall (L : nat -> nat -> nat -> num) (v : tensor3 num) (n : nat),
    n < B ->
    [nth n (refine B I O D k u_hat L v) []]
    = refine 1 I O D k [nth n u_hat []] (fun _ => L n) [nth n v []].
Proof.
  induction k as [|k IH]; intros L v n Hn; [reflexivity|].
  cbn [refine]. rewrite IH by assumption.
  rewrite capsules_item by assumption.
  apply refine_ext. intros m i j Hm Hi Hj.
  destruct m as [|m]; [reflexivity | lia].
Qed.

End BatchItems.

(** X13: [forward] treats the items of a batch separately: on votes of shape
    [batch, input_caps, output_caps, output_dim] its result is, item by
    item, what it returns for that item alone as a batch of one.  The
    [view(-1, ...)] reshapes and the expansion of [b] over the batch mix
    nothing between items. *)
Theorem forward_batch_items {num : Type} `{Scalar num} (B I O D : nat)
        (self : DynamicRouting) (u_hat : tensor4 num) :
  0 < B -> 0 < I -> 0 < O ->
  shape2 I O (b self) -> shape4 B I O D u_hat ->
  forward self u_hat = concat (map (fun ub => forward self [ub]) u_hat).
Proof.
  intros HB HI HO Hb Hu.
  assert (Hone : forall ub, In ub (u_hat) -> shape4 1 I O D [ub]).
  { intros ub Hin. destruct Hu as [_ Hall]. rewrite Forall_forall in Hall.
    split; [reflexivity|]. constructor; [now apply Hall | constructor]. }
  assert (Hitem : forall n, n < B ->
            forward self [nth n u_hat []] = [nth n (forward self u_hat) []]).
  { intros n Hn.
    assert (Hin : In (nth n u_hat []) u_hat).
    { apply nth_In. destruct Hu as [Hl _]. lia. }
    rewrite (forward_refine 1 I O D) by (try lia; try assumption; now apply Hone).
    rewrite (forward_refine B I O D HB HI HO self u_hat Hb Hu).
    destruct (0 <? n_iterations self)%Z.
    - unfold routing_spec. rewrite (refine_item I O D B) by assumption.
      now rewrite (capsules_item I O D B) by assumption.
    - now rewrite (capsules_item I O D B) by assumption. }
  assert (Hlen : length (forward self u_hat) = B).
  { rewrite (forward_refine B I O D HB HI HO self u_hat Hb Hu).
    destruct (0 <? n_iterations self)%Z.
    - unfold routing_spec. apply (refine_shape B I O D).
      apply capsules_shape.
    - apply (capsules_shape B I O D). }
  destruct Hu as [HuB _].
  rewrite <- (tabulate_nth u_hat []) at 2. rewrite HuB.
  rewrite map_tabulate.
  rewrite <- (tabulate_nth (forward self u_hat) []) at 1. rewrite Hlen.
  transitivity (concat (tabulate B (fun n => [nth n (forward self u_hat) []]))).
  - unfold tabulate. generalize (seq 0 B) as l.
    induction l as [|a l IH]; [reflexivity|].
    cbn [map concat app]. now rewrite <- IH.
  - f_equal. apply tabulate_ext. intros n Hn. symmetry. now apply Hitem.
Qed.

Lemma forward_batch_items_witness :
  forward {| n_iterations := 2; b := [[Fin 0; Fin 1]] |}
          [[[[Fin 1]; [Fin 2]]]; [[[Fin 3]; [Fin 4]]]]
  = concat (map (fun ub => forward {| n_iterations := 2; b := [[Fin 0; Fin 1]] |}
                                   [ub])
                [[[[Fin 1]; [Fin 2]]]; [[[Fin 3]; [Fin 4]]]]).
Proof.
  apply (forward_batch_items 2 1 2 1
           {| n_iterations := 2; b := [[Fin 0; Fin 1]] |}
           [[[[Fin 1]; [Fin 2]]]; [[[Fin 3]; [Fin 4]]]]).
  - lia.
  - lia.
  - lia.
  - split; [reflexivity | repeat constructor].
  - split; [reflexivity | repeat constructor].
Defined.

(** ** Zero votes *)

Section ZeroVotes.
Local Open Scope R_scope.
Variables B I O D : nat.
Hypothesis HI : (0 < I)%nat.
Hypothesis HD : (0 < D)%nat.

Lemma nan_capsules_tabulate :
  nan_capsules B O D
  = tabulate B (fun _ => tabulate O (fun _ => tabulate D (fun _ => NaN))).
Proof.
  unfold nan_capsules. rewrite repeat_tabulate.
  apply tabulate_ext. intros n _. rewrite repeat_tabulate.
  apply tabulate_ext. intros j _. apply repeat_tabulate.
Qed.

Lemma zero_votes_tabulate :
  zero_votes B I O D
  = tabulate B (fun _ => tabulate I (fun _ => tabulate O (fun _ =>
      tabulate D (fun _ => Fin 0)))).
Proof.
  unfold zero_votes. rewrite repeat_tabulate.
  apply tabulate_ext. intros n _. rewrite repeat_tabulate.
  apply tabulate_ext. intros i _. rewrite repeat_tabulate.
  apply tabulate_ext. intros j _. apply repeat_tabulate.
Qed.

Lemma sum_tabulate_nan (n : nat) (f : nat -> xreal) (k : nat) :
  (k < n)%nat -> f k = NaN -> sum (tabulate n f) = NaN.
Proof.
  intros Hk Hf. apply sum_nan. rewrite <- Hf.
  unfold tabulate. apply in_map. apply in_seq. lia.
Qed.

Lemma sum_tabulate_zero (n : nat) (f : nat -> xreal) :
  (forall k, (k < n)%nat -> f k = Fin 0) -> sum (tabulate n f) = Fin 0.
Proof.
  intros Hf. rewrite (tabulate_ext n f (fun _ => Fin 0) Hf).
  rewrite <- repeat_tabulate. clear Hf.
  induction n as [|n IH]; [reflexivity|].
  cbn [repeat]. change (sum (Fin 0 :: repeat (Fin 0) n))
    with (add (Fin 0) (sum (repeat (Fin 0) n))).
  rewrite IH. cbn [add xreal_arith xlift2]. f_equal. ring.
Qed.

Lemma squash_vec_nan :
  squash_vec (tabulate D (fun _ => NaN)) = tabulate D (fun _ : nat => NaN).
Proof.
  unfold squash_vec. rewrite (map_tabulate pow2).
  rewrite (sum_tabulate_nan D _ 0%nat HD) by reflexivity.
  rewrite map_tabulate. reflexivity.
Qed.

Lemma squash_vec_zero :
  squash_vec (tabulate D (fun _ => Fin 0)) = tabulate D (fun _ : nat => NaN).
Proof.
  unfold squash_vec. rewrite (map_tabulate pow2).
  rewrite sum_tabulate_zero.
  2: { intros k _. cbn [pow2 mul xreal_arith xlift2]. f_equal. ring. }
  cbn [add one div sqrt mul xreal_arith xlift2].
  rewrite xsqrt_fin by lra. rewrite sqrt_0.
  rewrite xdiv_fin by lra. rewrite xdiv_zero.
  rewrite map_tabulate. reflexivity.
Qed.

(** Capsules that are not numbers stay so in every later pass, whatever
    the votes and the logits are. *)
Lemma refine_nan (u_hat : tensor4 xreal) (k : nat) :
  forall L : nat -> nat -> nat -> xreal,
    refine B I O D k u_hat L (nan_capsules B O D) = nan_capsules B O D.
Proof.
  induction k as [|k IH]; intros L; [reflexivity|].
  cbn [refine].
  match goal with
  | |- refine _ _ _ _ _ _ ?L' ?v' = _ =>
      replace v' with (nan_capsules B O D); [apply IH|]
  end.
  symmetry. etransitivity; [|symmetry; apply nan_capsules_tabulate].
  unfold capsules, weighted_sum.
  rewrite squash_map, map_tabulate.
  apply tabulate_ext. intros n Hn. rewrite map_tabulate.
  apply tabulate_ext. intros j Hj.
  rewrite <- squash_vec_nan. f_equal.
  apply tabulate_ext. intros d Hd.
  apply (sum_tabulate_nan I _ 0%nat HI).
  assert (Hag : agreement D u_hat (nan_capsules B O D) n 0 j = NaN).
  { unfold agreement.
    apply (sum_tabulate_nan D _ 0%nat HD).
    rewrite nan_capsules_tabulate.
    rewrite (entry3_tabulate B O D (fun _ _ _ => NaN)) by assumption.
    now destruct (entry4 u_hat n 0 j 0). }
  unfold coupling. rewrite Hag.
  now destruct (L n 0%nat j).
Qed.

End ZeroVotes.

Section ZeroVotesForward.
Local Open Scope R_scope.
Variables B I O D : nat.
Hypothesis HB : (0 < B)%nat.
Hypothesis HI : (0 < I)%nat.
Hypothesis HO : (0 < O)%nat.
Hypothesis HD : (0 < D)%nat.

Lemma entry2_lift (bl : list (list R)) (i j : nat) :
  entry2 (lift2 bl) i j = Fin (nth j (nth i bl []) 0).
Proof.
  unfold entry2, lift2.
  rewrite (nth_map_nil lift1 bl i eq_refl).
  unfold lift1. apply (map_nth Fin).
Qed.

Lemma coupling_finite (bl : list (list R)) (i j : nat) :
  exists x : R, coupling O (entry2 (lift2 bl)) i j = Fin x.
Proof.
  unfold coupling.
  set (l := tabulate O (fun k => nth k (nth i bl []) 0)).
  assert (Hl : tabulate O (fun k => exp (entry2 (lift2 bl) i k))
               = map exp (lift1 l)).
  { subst l. unfold lift1. rewrite !map_tabulate.
    apply tabulate_ext. intros k _. now rewrite entry2_lift. }
  rewrite Hl, sum_exp_lift, entry2_lift.
  cbn [exp div xreal_scalar xreal_arith xlift1].
  assert (Hne : l <> []).
  { subst l. intros E. apply (f_equal (@length R)) in E.
    rewrite length_tabulate in E. simpl in E. lia. }
  pose proof (Rsum_exp_pos l Hne) as Hpos.
  rewrite xdiv_fin by lra. eexists. reflexivity.
Qed.

Lemma zero_votes_shape : shape4 B I O D (zero_votes B I O D).
Proof.
  unfold zero_votes. split; [apply repeat_length|].
  apply Forall_forall. intros t Ht. apply repeat_spec in Ht. subst t.
  split; [apply repeat_length|].
  apply Forall_forall. intros m Hm. apply repeat_spec in Hm. subst m.
  split; [apply repeat_length|].
  apply Forall_forall. intros v Hv. apply repeat_spec in Hv. subst v.
  apply repeat_length.
Qed.

Lemma capsules_zero_votes (bl : list (list R)) :
  capsules B I O D (fun _ => coupling O (entry2 (lift2 bl)))
           (zero_votes B I O D)
  = nan_capsules B O D.
Proof.
  rewrite nan_capsules_tabulate.
  unfold capsules, weighted_sum. rewrite squash_map, map_tabulate.
  apply tabulate_ext. intros n Hn. rewrite map_tabulate.
  apply tabulate_ext. intros j Hj.
  rewrite <- (squash_vec_zero D). f_equal.
  apply tabulate_ext. intros d Hd.
  apply sum_tabulate_zero. intros i Hi.
  destruct (coupling_finite bl i j) as [x ->].
  rewrite zero_votes_tabulate.
  rewrite (entry4_tabulate B I O D (fun _ _ _ _ => Fin 0)) by assumption.
  cbn [mul xreal_arith xlift2]. f_equal. ring.
Qed.

End ZeroVotesForward.

(** X14: Votes that are all zero make every output capsule not a number, for
    any finite logits and any number of iterations: the weighted sums are
    zero vectors, which [squash] divides by their zero length, and no
    later pass recovers. *)
Theorem forward_zero_votes_nan (B I O D : nat) (n : Z) (bl : list (list R)) :
  0 < B -> 0 < I -> 0 < O -> 0 < D ->
  shape2 I O bl ->
  forward {| n_iterations := n; b := lift2 bl |} (zero_votes B I O D)
  = nan_capsules B O D.
Proof.
  intros HB HI HO HD Hb.
  assert (Hb' : shape2 I O (lift2 bl)).
  { destruct Hb as [Hl Hr]. split; [unfold lift2; now rewrite length_map|].
    unfold lift2. rewrite Forall_map. eapply Forall_impl; [|exact Hr].
    intros v Hv. unfold lift1. now rewrite length_map. }
  rewrite (forward_refine B I O D HB HI HO) by
      (try assumption; apply zero_votes_shape).
  cbn [n_iterations b].
  destruct (0 <? n)%Z.
  - unfold routing_spec. rewrite capsules_zero_votes by assumption.
    now apply refine_nan.
  - now apply capsules_zero_votes.
Qed.

Lemma forward_zero_votes_nan_witness :
  forward {| n_iterations := 3; b := lift2 [[0; 0]%R] |} (zero_votes 2 1 2 3)
  = nan_capsules 2 2 3.
Proof.
  apply (forward_zero_votes_nan 2 1 2 3 3 [[0; 0]%R]).
  - lia.
  - lia.
  - lia.
  - lia.
  - split; [reflexivity | repeat constructor].
Defined.

(** ** Flattening and regrouping *)

Lemma seq_offset (a c : nat) : seq a c = map (fun i => a + i) (seq 0 c).
Proof.
  revert a. induction c as [|c IH]; intros a; [reflexivity|].
  cbn [seq map]. f_equal; [lia|].
  rewrite <- (seq_shift c 0), map_map, (IH (S a)).
  apply map_ext. intros i. lia.
Qed.

Lemma tabulate_app {A : Type} (a c : nat) (f : nat -> A) :
  tabulate (a + c) f = tabulate a f ++ tabulate c (fun i => f (a + i)).
Proof.
  unfold tabulate. rewrite seq_app, map_app. f_equal.
  cbn [Nat.add]. rewrite (seq_offset a c). apply map_map.
Qed.

Lemma tabulate_succ {A : Type} (K : nat) (f : nat -> A) :
  tabulate (S K) f = tabulate K f ++ [f K].
Proof.
  rewrite <- (Nat.add_1_r K), tabulate_app.
  unfold tabulate at 2. cbn [seq map]. now rewrite Nat.add_0_r.
Qed.

(** The rows of a [K x W] table one after the other: entry [m] of the
    result is entry [m mod W] of row [m / W]. *)
Lemma concat_tabulate {A : Type} (K W : nat) (g : nat -> nat -> A) :
  concat (tabulate K (fun k => tabulate W (g k)))
  = tabulate (K * W) (fun m => g (m / W) (m mod W)).
Proof.
  destruct W as [|W'].
  - rewrite Nat.mul_0_r. unfold tabulate. cbn [seq map].
    induction (seq 0 K) as [|k l IH]; [reflexivity | exact IH].
  - set (W := S W').
    induction K as [|K IH]; [reflexivity|].
    rewrite tabulate_succ, concat_app, IH.
    replace (S K * W) with (K * W + W) by lia.
    rewrite tabulate_app. f_equal.
    cbn [concat]. rewrite app_nil_r.
    apply tabulate_ext. intros j Hj.
    replace (K * W + j) with (j + K * W) by lia.
    rewrite Nat.div_add, Nat.Div0.mod_add by (subst W; lia).
    rewrite Nat.div_small, Nat.mod_small by assumption.
    reflexivity.
Qed.

Lemma tabulate_rows_length {A : Type} (K W : nat) (g : nat -> nat -> A) :
  Forall (fun r => length r = W) (tabulate K (fun k => tabulate W (g k))).
Proof.
  apply Forall_forall. intros r Hr.
  apply in_map_iff in Hr as [k [<- _]]. apply length_tabulate.
Qed.

(** Cutting a list of [K * W] elements into rows of [W]. *)
Lemma chunk_tabulate {A : Type} (K W : nat) (f : nat -> A) :
  0 < W ->
  chunk W (tabulate (K * W) f)
  = tabulate K (fun k => tabulate W (fun j => f (k * W + j))).
Proof.
  intros HW.
  transitivity (chunk W (concat (tabulate K (fun k => tabulate W (fun j =>
                  f (k * W + j)))))).
  - f_equal. rewrite concat_tabulate.
    apply tabulate_ext. intros m _. f_equal.
    rewrite (Nat.div_mod_eq m W) at 1. lia.
  - apply chunk_concat; [assumption | apply tabulate_rows_length].
Qed.

Lemma concat_singletons {A : Type} (n : nat) (v : nat -> A) :
  concat (tabulate n (fun m => [v m])) = tabulate n v.
Proof.
  unfold tabulate. induction (seq 0 n) as [|a l IH]; [reflexivity|].
  cbn [map concat app]. now rewrite IH.
Qed.

Lemma div_mod_encode (a c r : nat) :
  r < c -> (a * c + r) / c = a /\ (a * c + r) mod c = r.
Proof.
  intros Hr. split.
  - rewrite Nat.div_add_l by lia. rewrite Nat.div_small by assumption. lia.
  - rewrite Nat.add_comm, Nat.Div0.mod_add. now apply Nat.mod_small.
Qed.

(** ** CapsLayer: the votes *)

Section Votes.
Context {num : Type} `{Scalar num}.

Lemma vec_mat_tabulate (K O D : nat) (a : nat -> num)
      (wf : nat -> nat -> num) :
  0 < K ->
  vec_mat (tabulate K a) (tabulate K (fun k => tabulate (O * D) (wf k)))
  = tabulate (O * D) (fun c => sum (tabulate K (fun k => mul (a k) (wf k c)))).
Proof.
  intros HK. unfold vec_mat.
  assert (Hhd : length (hd [] (tabulate K (fun k => tabulate (O * D) (wf k))))
                = O * D).
  { destruct K as [|K']; [lia|].
    unfold tabulate at 1. cbn [seq map hd]. apply length_tabulate. }
  rewrite Hhd. apply tabulate_ext. intros c Hc. f_equal.
  rewrite zip_with_tabulate. apply tabulate_ext. intros k Hk.
  now rewrite nth_tabulate.
Qed.

Lemma matmul_weights_tabulate (B I K O D : nat) (x w : tensor3 num) :
  0 < K ->
  shape3 B I K x -> shape3 I K (O * D) w ->
  matmul_weights x w
  = tabulate B (fun n => tabulate I (fun i =>
      [tabulate (O * D) (fun c =>
         sum (tabulate K (fun k => mul (entry3 x n i k) (entry3 w i k c))))])).
Proof.
  intros HK Hx Hw. unfold matmul_weights.
  rewrite (shape3_tabulate _ _ _ x Hx) at 1.
  rewrite map_tabulate. apply tabulate_ext. intros n Hn.
  rewrite (shape3_tabulate _ _ _ w Hw) at 1.
  rewrite zip_with_tabulate. apply tabulate_ext. intros i Hi.
  f_equal. now apply vec_mat_tabulate.
Qed.

Lemma view_votes_tabulate (B I O D : nat) (s : nat -> nat -> nat -> num) :
  0 < I -> 0 < O -> 0 < D ->
  view_votes I O D
    (tabulate B (fun n => tabulate I (fun i => [tabulate (O * D) (s n i)])))
  = tabulate B (fun n => tabulate I (fun i => tabulate O (fun j =>
      tabulate D (fun d => s n i (j * D + d))))).
Proof.
  intros HI HO HD. unfold view_votes, flat4.
  rewrite concat_tabulate, concat_singletons, concat_tabulate.
  replace (B * I * (O * D)) with (B * I * O * D) by lia.
  rewrite chunk_tabulate by assumption.
  rewrite chunk_tabulate by assumption.
  rewrite chunk_tabulate by assumption.
  apply tabulate_ext. intros n Hn.
  apply tabulate_ext. intros i Hi.
  apply tabulate_ext. intros j Hj.
  apply tabulate_ext. intros d Hd.
  assert (Hc : j * D + d < O * D) by nia.
  replace (((n * I + i) * O + j) * D + d)
    with ((n * I + i) * (O * D) + (j * D + d)) by lia.
  destruct (div_mod_encode (n * I + i) (O * D) (j * D + d) Hc) as [-> ->].
  destruct (div_mod_encode n I i Hi) as [-> ->].
  reflexivity.
Qed.

End Votes.

(** X15: [CapsLayer.forward] routes the votes
    [u_hat[n, i, j, d] = sum_k x[n, i, k] * weights[i, k, j * D + d]]:
    the output capsule [j] of dimension [D = output_dim] owns the columns
    [j * D, ..., j * D + D - 1] of every weight matrix. *)
Theorem CapsLayer_votes {num : Type} `{Scalar num} (B : nat)
        (self : CapsLayer) (x : tensor3 num) :
  0 < input_caps self -> 0 < input_dim self ->
  0 < output_caps self -> 0 < output_dim self ->
  shape3 B (input_caps self) (input_dim self) x ->
  shape3 (input_caps self) (input_dim self)
         (output_caps self * output_dim self) (weights self) ->
  CapsLayer_forward self x
  = forward (routing_module self)
      (tabulate B (fun n => tabulate (input_caps self) (fun i =>
         tabulate (output_caps self) (fun j =>
           tabulate (output_dim self) (fun d =>
             vote (input_dim self) (output_dim self)
                  x (weights self) n i j d))))).
Proof.
  intros HI HK HO HD Hx Hw. unfold CapsLayer_forward. f_equal.
  rewrite (matmul_weights_tabulate B (input_caps self) (input_dim self)
             (output_caps self) (output_dim self)) by assumption.
  now rewrite view_votes_tabulate by assumption.
Qed.

Lemma CapsLayer_votes_witness :
  let self := {| input_caps := 1; input_dim := 1;
                 output_caps := 2; output_dim := 1;
                 weights := [[[Fin 1; Fin 2]]];
                 routing_module :=
                   {| n_iterations := 1; b := [[Fin 0; Fin 0]] |} |} in
  CapsLayer_forward self [[[Fin 3]]]
  = forward (routing_module self)
      (tabulate 1 (fun n => tabulate 1 (fun i => tabulate 2 (fun j =>
         tabulate 1 (fun d =>
           vote 1 1 [[[Fin 3]]] [[[Fin 1; Fin 2]]] n i j d))))).
Proof.
  apply (CapsLayer_votes 1
           {| input_caps := 1; input_dim := 1;
              output_caps := 2; output_dim := 1;
              weights := [[[Fin 1; Fin 2]]];
              routing_module :=
                {| n_iterations := 1; b := [[Fin 0; Fin 0]] |} |}
           [[[Fin 3]]]).
  - cbn [input_caps]. lia.
  - cbn [input_dim]. lia.
  - cbn [output_caps]. lia.
  - cbn [output_dim]. lia.
  - split; [reflexivity | repeat constructor].
  - split; [reflexivity | repeat constructor].
Defined.

(** ** FirstCapsuleLayer: which channels make a capsule *)

Lemma decode_encode (n C ch Hh h Ww w : nat) :
  ch < C -> h < Hh -> w < Ww ->
  let m := ((n * C + ch) * Hh + h) * Ww + w in
  m mod Ww = w /\ (m / Ww) mod Hh = h
  /\ (m / Ww / Hh) mod C = ch /\ m / Ww / Hh / C = n.
Proof.
  intros Hch Hh' Hw m. subst m.
  destruct (div_mod_encode ((n * C + ch) * Hh + h) Ww w Hw) as [E1 E2].
  destruct (div_mod_encode (n * C + ch) Hh h Hh') as [E3 E4].
  destruct (div_mod_encode n C ch Hch) as [E5 E6].
  rewrite E2, E1, E4, E3, E6, E5. repeat split.
Qed.

Section FlatTensors.
Context {A : Type}.

Lemma flat_tabulate4 (N C Hh Ww : nat) (f : nat -> nat -> nat -> nat -> A) :
  concat (concat (concat
    (tabulate N (fun n => tabulate C (fun c => tabulate Hh (fun h =>
       tabulate Ww (f n c h)))))))
  = tabulate (N * C * Hh * Ww)
      (fun m => f (m / Ww / Hh / C) ((m / Ww / Hh) mod C)
                  ((m / Ww) mod Hh) (m mod Ww)).
Proof.
  rewrite (concat_tabulate N C
             (fun n c => tabulate Hh (fun h => tabulate Ww (f n c h)))).
  cbv beta.
  rewrite (concat_tabulate (N * C) Hh
             (fun m h => tabulate Ww (f (m / C) (m mod C) h))).
  cbv beta.
  rewrite (concat_tabulate (N * C * Hh) Ww
             (fun m => f (m / Hh / C) ((m / Hh) mod C) (m mod Hh))).
  reflexivity.
Qed.

Lemma unflat_tabulate4 (N C Hh Ww : nat) (F : nat -> A) :
  0 < C -> 0 < Hh -> 0 < Ww ->
  chunk C (chunk Hh (chunk Ww (tabulate (N * C * Hh * Ww) F)))
  = tabulate N (fun n => tabulate C (fun c => tabulate Hh (fun h =>
      tabulate Ww (fun w => F (((n * C + c) * Hh + h) * Ww + w))))).
Proof.
  intros HC HH HW.
  rewrite chunk_tabulate by assumption.
  rewrite chunk_tabulate by assumption.
  rewrite chunk_tabulate by assumption.
  reflexivity.
Qed.

End FlatTensors.

Lemma capsule_index (n caps Hh Ww k : nat) :
  0 < Hh -> 0 < Ww -> k < caps * Hh * Ww ->
  let q := n * (caps * Hh * Ww) + k in
  q mod Ww = k mod Ww /\ (q / Ww) mod Hh = (k / Ww) mod Hh
  /\ (q / Ww / Hh) mod caps = k / (Hh * Ww) /\ q / Ww / Hh / caps = n
  /\ k / (Hh * Ww) < caps.
Proof.
  intros HH HW Hk q. subst q.
  assert (Hc : k / Ww / Hh < caps).
  { apply Nat.Div0.div_lt_upper_bound. apply Nat.Div0.div_lt_upper_bound. lia. }
  assert (Ediv : k / (Hh * Ww) = k / Ww / Hh).
  { rewrite Nat.Div0.div_div. f_equal. lia. }
  assert (E1 : (n * (caps * Hh * Ww) + k) / Ww = n * caps * Hh + k / Ww).
  { replace (n * (caps * Hh * Ww) + k) with (n * caps * Hh * Ww + k) by lia.
    apply Nat.div_add_l. lia. }
  assert (E2 : (n * caps * Hh + k / Ww) / Hh = n * caps + k / Ww / Hh).
  { apply Nat.div_add_l. lia. }
  rewrite Ediv, E1, E2. repeat split.
  - replace (n * (caps * Hh * Ww) + k) with (k + n * caps * Hh * Ww) by lia.
    apply Nat.Div0.mod_add.
  - replace (n * caps * Hh + k / Ww) with (k / Ww + n * caps * Hh) by lia.
    apply Nat.Div0.mod_add.
  - now apply div_mod_encode.
  - now apply div_mod_encode.
  - assumption.
Qed.

Section PrimaryCapsules.
Context {num : Type} `{Arith num}.
Variables N caps dim Hh Ww : nat.
Hypothesis HN : 0 < N.
Hypothesis Hcaps : 0 < caps.
Hypothesis Hdim : 0 < dim.
Hypothesis HHh : 0 < Hh.
Hypothesis HWw : 0 < Ww.

(** Splitting the channel axis in [caps] groups of [dim] channels. *)
Lemma view5_tabulate (f : nat -> nat -> nat -> nat -> num) :
  view5 caps dim Hh Ww
    (tabulate N (fun n => tabulate (caps * dim) (fun ch => tabulate Hh (fun h =>
       tabulate Ww (f n ch h)))))
  = tabulate N (fun n => tabulate caps (fun c => tabulate dim (fun d =>
      tabulate Hh (fun h => tabulate Ww (fun w => f n (c * dim + d) h w))))).
Proof.
  unfold view5, flat4. rewrite flat_tabulate4.
  rewrite chunk_tabulate by assumption.
  rewrite chunk_tabulate by assumption.
  replace (N * (caps * dim)) with (N * caps * dim) by lia.
  rewrite chunk_tabulate by assumption.
  rewrite chunk_tabulate by assumption.
  apply tabulate_ext. intros n Hn.
  apply tabulate_ext. intros c Hc.
  apply tabulate_ext. intros d Hd.
  apply tabulate_ext. intros h Hh'.
  apply tabulate_ext. intros w Hw.
  assert (Hch : c * dim + d < caps * dim) by nia.
  replace ((((n * caps + c) * dim + d) * Hh + h) * Ww + w)
    with (((n * (caps * dim) + (c * dim + d)) * Hh + h) * Ww + w) by lia.
  destruct (decode_encode n (caps * dim) (c * dim + d) Hh h Ww w Hch Hh' Hw)
    as [-> [-> [-> ->]]].
  reflexivity.
Qed.

Lemma permute_tabulate (g : nat -> nat -> nat -> nat -> nat -> num) :
  permute_01342 Hh Ww
    (tabulate N (fun n => tabulate caps (fun c => tabulate dim (fun d =>
       tabulate Hh (fun h => tabulate Ww (g n c d h))))))
  = tabulate N (fun n => tabulate caps (fun c => tabulate Hh (fun h =>
      tabulate Ww (fun w => tabulate dim (fun d => g n c d h w))))).
Proof.
  unfold permute_01342. rewrite map_tabulate.
  apply tabulate_ext. intros n Hn. rewrite map_tabulate.
  apply tabulate_ext. intros c Hc.
  apply tabulate_ext. intros h Hh'.
  apply tabulate_ext. intros w Hw.
  rewrite map_tabulate. apply tabulate_ext. intros d Hd.
  now rewrite !nth_tabulate.
Qed.

Lemma view_caps_tabulate (g : nat -> nat -> nat -> nat -> nat -> num) :
  view_caps N dim
    (tabulate N (fun n => tabulate caps (fun c => tabulate Hh (fun h =>
       tabulate Ww (fun w => tabulate dim (g n c h w))))))
  = tabulate N (fun n => tabulate (caps * Hh * Ww) (fun k =>
      tabulate dim (g n (k / (Hh * Ww)) ((k / Ww) mod Hh) (k mod Ww)))).
Proof.
  unfold view_caps.
  rewrite (flat_tabulate4 N caps Hh Ww
             (fun n c h w => tabulate dim (g n c h w))).
  rewrite chunk_concat.
  2: assumption.
  2: { apply Forall_forall. intros r Hr.
       apply in_map_iff in Hr as [q [<- _]]. apply length_tabulate. }
  rewrite length_tabulate.
  replace (N * caps * Hh * Ww / N) with (caps * Hh * Ww).
  2: { replace (N * caps * Hh * Ww) with (caps * Hh * Ww * N) by lia.
       symmetry. apply Nat.div_mul. lia. }
  replace (N * caps * Hh * Ww) with (N * (caps * Hh * Ww)) by lia.
  rewrite chunk_tabulate by nia.
  apply tabulate_ext. intros n Hn.
  apply tabulate_ext. intros k Hk.
  destruct (capsule_index n caps Hh Ww k HHh HWw Hk) as [-> [-> [-> [-> _]]]].
  reflexivity.
Qed.

End PrimaryCapsules.

(** X16: [FirstCapsuleLayer.forward] makes [output_caps * H * W] capsules out
    of a convolution output of shape [N, output_caps * output_dim, H, W]:
    capsule [k] of batch item [n] is the squash of the vector whose
    component [d] is the output of channel [(k / (H * W)) * output_dim + d]
    at row [(k / W) mod H] and column [k mod W].  A capsule type owns
    [output_dim] consecutive channels, and its capsules are laid out
    position by position. *)
Theorem primary_capsule_layout {num : Type} `{Arith num}
        (conv1 : tensor4 num -> tensor4 num) (N caps dim Hh Ww : nat)
        (input : tensor4 num) :
  0 < N -> 0 < caps -> 0 < dim -> 0 < Hh -> 0 < Ww ->
  shape4 N (caps * dim) Hh Ww (conv1 input) ->
  FirstCapsuleLayer_forward conv1 caps dim input
  = squash (tabulate N (fun n => tabulate (caps * Hh * Ww) (fun k =>
      tabulate dim (fun d =>
        entry4 (conv1 input) n (k / (Hh * Ww) * dim + d)
               ((k / Ww) mod Hh) (k mod Ww)))))
  /\ shape3 N (caps * Hh * Ww) dim
            (FirstCapsuleLayer_forward conv1 caps dim input).
Proof.
  intros HN Hcaps Hdim HHh HWw Hs.
  assert (HC : 0 < caps * dim) by nia.
  assert (E : FirstCapsuleLayer_forward conv1 caps dim input
              = squash (tabulate N (fun n => tabulate (caps * Hh * Ww) (fun k =>
                  tabulate dim (fun d =>
                    entry4 (conv1 input) n (k / (Hh * Ww) * dim + d)
                           ((k / Ww) mod Hh) (k mod Ww)))))).
  { unfold FirstCapsuleLayer_forward. cbv zeta.
    rewrite (size4_shape4 N (caps * dim) Hh Ww HN HC HHh _ Hs).
    f_equal.
    transitivity
      (view_caps N dim (permute_01342 Hh Ww (view5 caps dim Hh Ww
         (tabulate N (fun n => tabulate (caps * dim) (fun ch =>
            tabulate Hh (fun h => tabulate Ww (entry4 (conv1 input) n ch h)))))))).
    - now rewrite <- (shape4_tabulate _ _ _ _ (conv1 input) Hs).
    - rewrite (view5_tabulate N caps dim Hh Ww) by assumption.
      rewrite (permute_tabulate N caps dim Hh Ww
                 (fun n c d h w => entry4 (conv1 input) n (c * dim + d) h w)).
      now rewrite (view_caps_tabulate N caps dim Hh Ww) by assumption. }
  split; [exact E|]. rewrite E. apply squash_shape.
  apply (tabulate_shape3 N (caps * Hh * Ww) dim
           (fun n k d => entry4 (conv1 input) n (k / (Hh * Ww) * dim + d)
                                ((k / Ww) mod Hh) (k mod Ww))).
Qed.

Lemma primary_capsule_layout_witness :
  FirstCapsuleLayer_forward (fun t : tensor4 xreal => t) 1 2
                            [[[[Fin 1]]; [[Fin 2]]]]
  = squash (tabulate 1 (fun n => tabulate (1 * 1 * 1) (fun k =>
      tabulate 2 (fun d =>
        entry4 [[[[Fin 1]]; [[Fin 2]]]] n (k / (1 * 1) * 2 + d)
               ((k / 1) mod 1) (k mod 1)))))
  /\ shape3 1 (1 * 1 * 1) 2
            (FirstCapsuleLayer_forward (fun t : tensor4 xreal => t) 1 2
                                       [[[[Fin 1]]; [[Fin 2]]]]).
Proof.
  apply (primary_capsule_layout (fun t : tensor4 xreal => t) 1 1 2 1 1
                                [[[[Fin 1]]; [[Fin 2]]]]).
  - lia.
  - lia.
  - lia.
  - lia.
  - lia.
  - split; [reflexivity | repeat constructor].
Defined.
